(** * Route optimizer: a shallow embedding of [route-optmizer.py]

    The Python program builds a single-driver delivery route with a greedy
    nearest-stop search.

    The route builder is modelled in exact arithmetic: Python floats are
    real numbers there, and [float('inf')], the only non-real value the
    program creates, is the constructor [Infinity] of [arrival].  The two
    [set] fields of [DeliveryState] are finite sets of strings and the
    timeline dictionaries are a tagged union.  What exact arithmetic leaves
    out is rounding and the exceptions of the [math] module: [math.sqrt]
    and [math.asin] raise [ValueError] outside their domain, which the
    argument never leaves over the reals ([haversine_distance_checked_total])
    and can leave after rounding.  Statements about whole runs are
    therefore about runs that return.

    The module [Binary64] models [haversine_distance] again on IEEE 754
    binary64 numbers, with those exceptions. *)

From Stdlib Require Import Reals Lra.
From Stdlib Require Floats.
From stdpp Require Import gmap strings list.

(** ** Data model *)

Record Location := mkLocation { name : string; lat : R; lon : R }.

Record Restaurant := mkRestaurant { location : Location; prep_time : R }.

Record Order := mkOrder { id : string; restaurant : Restaurant; customer : Location }.

(** [DeliveryState]: the attributes [location] and [time] carry the prefix
    [state_] because [location] is already the field of [Restaurant]. *)
Record DeliveryState := mkState {
  state_location : Location;
  state_time : R;
  picked_up_orders : gset string;
  delivered_orders : gset string;
  restaurant_arrival_times : gmap string R
}.

(** [DeliveryState.__init__] *)
Definition new_state (current_location : Location) (current_time : R) : DeliveryState :=
  mkState current_location current_time ∅ ∅ ∅.

(** The timeline dictionaries, tagged by their ['action']. *)
Inductive Event :=
| Waiting (loc_name order_id : string) (start_time end_time : R)
| Pickup (loc_name order_id : string) (time : R)
| Delivery (loc_name order_id : string) (time : R).

(** [best_arrival_time]: a real, or [float('inf')]. *)
Inductive arrival := Finite (t : R) | Infinity.

(** Decidable comparisons on the reals, as the program's [==] and [<]. *)
#[global] Instance R_eq_dec : EqDecision R := Req_dec_T.
#[global] Instance Rlt_decision (x y : R) : Decision (x < y)%R := Rlt_dec x y.
#[global] Instance Location_eq_dec : EqDecision Location.
Proof. solve_decision. Defined.

(** [t < best_arrival_time] *)
Definition lt_arrival (t : R) (b : arrival) : bool :=
  match b with
  | Finite u => bool_decide (t < u)%R
  | Infinity => true
  end.

(** Python's [max(a, b)]: the first argument unless the second is larger. *)
Definition py_max (a b : R) : R := if bool_decide (a < b)%R then b else a.

(** ** Geospatial distance *)

Definition EARTH_RADIUS : R := 6371.
Definition AVG_SPEED : R := 20.

(** [math.radians] *)
Definition radians (x : R) : R := (x * (PI / 180))%R.

(** The argument [a] of the square root in [haversine_distance]. *)
Definition haversine_a (loc1 loc2 : Location) : R :=
  let lat1 := radians (lat loc1) in
  let lon1 := radians (lon loc1) in
  let lat2 := radians (lat loc2) in
  let lon2 := radians (lon loc2) in
  let dlat := (lat2 - lat1)%R in
  let dlon := (lon2 - lon1)%R in
  (sin (dlat / 2) ^ 2 + cos lat1 * cos lat2 * sin (dlon / 2) ^ 2)%R.

(** Over the reals [sqrt] and [asin] are total functions; the program's
    [math.sqrt] and [math.asin] are the partial ones below. *)
Definition haversine_distance (loc1 loc2 : Location) : R :=
  let a := haversine_a loc1 loc2 in
  let c := (2 * asin (sqrt a))%R in
  (EARTH_RADIUS * c)%R.

(** [math.sqrt] and [math.asin] with their domain checks: [None] stands for
    [ValueError]. *)
Definition math_sqrt (x : R) : option R :=
  if bool_decide (x < 0)%R then None else Some (sqrt x).
Definition math_asin (x : R) : option R :=
  if bool_decide (x < -1)%R || bool_decide (1 < x)%R then None else Some (asin x).

(** [haversine_distance] with those checks. *)
Definition haversine_distance_checked (loc1 loc2 : Location) : option R :=
  match math_sqrt (haversine_a loc1 loc2) with
  | None => None
  | Some root =>
      match math_asin root with
      | None => None
      | Some angle => Some (EARTH_RADIUS * (2 * angle))%R
      end
  end.

Definition travel_time (loc1 loc2 : Location) : R :=
  let distance := haversine_distance loc1 loc2 in
  (distance / AVG_SPEED * 60)%R.

(** ** The state monad of the route builder

    [find_nearest_valid_location] and the loop body of [optimize_route]
    work on one shared [DeliveryState] object; a computation takes the
    object's current value and returns its value afterwards. *)

Definition M (A : Type) : Type := DeliveryState → A * DeliveryState.

Definition ret {A} (a : A) : M A := λ s, (a, s).
Definition bind {A B} (m : M A) (k : A → M B) : M B :=
  λ s, let '(a, s') := m s in k a s'.
Definition gets {A} (f : DeliveryState → A) : M A := λ s, (f s, s).
Definition modify (f : DeliveryState → DeliveryState) : M unit := λ s, (tt, f s).

Notation "x <~ m ;; k" := (bind m (λ x, k))
  (at level 100, m at next level, right associativity).
Notation "m ;;; k" := (bind m (λ _, k))
  (at level 100, right associativity).

(** Attribute assignments on the state object. *)
Definition set_time (t : R) (s : DeliveryState) : DeliveryState :=
  mkState (state_location s) t (picked_up_orders s) (delivered_orders s)
          (restaurant_arrival_times s).
Definition set_location (l : Location) (s : DeliveryState) : DeliveryState :=
  mkState l (state_time s) (picked_up_orders s) (delivered_orders s)
          (restaurant_arrival_times s).
Definition add_picked_up (oid : string) (s : DeliveryState) : DeliveryState :=
  mkState (state_location s) (state_time s) ({[oid]} ∪ picked_up_orders s)
          (delivered_orders s) (restaurant_arrival_times s).
Definition add_delivered (oid : string) (s : DeliveryState) : DeliveryState :=
  mkState (state_location s) (state_time s) (picked_up_orders s)
          ({[oid]} ∪ delivered_orders s) (restaurant_arrival_times s).

(** ** Candidate search *)

(** The three running variables [best_location], [best_order_id],
    [best_arrival_time]. *)
Definition best : Type := option Location * option string * arrival.

Definition no_candidate : best := (None, None, Infinity).

(** Arrival time at [loc] from the state's position. *)
Definition arrival_at (state : DeliveryState) (loc : Location) : R :=
  (state_time state + travel_time (state_location state) loc)%R.

(** The guard of the restaurant-pickup branch (lines 86-88). *)
Definition pickup_valid (state : DeliveryState) (order : Order)
    (waiting_required : bool) : bool :=
  bool_decide (id order ∉ picked_up_orders state) &&
  (negb waiting_required ||
   bool_decide (arrival_at state (location (restaurant order))
                < prep_time (restaurant order))%R).

(** The guard of the customer-delivery branch (lines 97-98). *)
Definition delivery_valid (state : DeliveryState) (order : Order) : bool :=
  bool_decide (id order ∈ picked_up_orders state) &&
  bool_decide (id order ∉ delivered_orders state).

(** [if arrival_time < best_arrival_time: best_... = ...] *)
Definition improve (loc : Location) (oid : string) (arrival_time : R) (b : best) : best :=
  if lt_arrival arrival_time b.2 then (Some loc, Some oid, Finite arrival_time) else b.

(** The body of [for order in orders]. *)
Definition visit_order (order : Order) (waiting_required : bool) (b : best) : M best :=
  pick <~ gets (λ state, pickup_valid state order waiting_required) ;;
  b1 <~ (if pick : bool then
           arrival_time <~ gets (λ state, arrival_at state (location (restaurant order))) ;;
           ret (improve (location (restaurant order)) (id order) arrival_time b)
         else ret b) ;;
  deliver <~ gets (λ state, delivery_valid state order) ;;
  if deliver : bool then
    arrival_time <~ gets (λ state, arrival_at state (customer order)) ;;
    ret (improve (customer order) (id order) arrival_time b1)
  else ret b1.

Fixpoint scan_orders (orders : list Order) (waiting_required : bool) (b : best) : M best :=
  match orders with
  | [] => ret b
  | order :: rest =>
      b' <~ visit_order order waiting_required b ;;
      scan_orders rest waiting_required b'
  end.

Definition find_nearest_valid_location (orders : list Order)
    (waiting_required : bool) : M best :=
  scan_orders orders waiting_required no_candidate.

(** ** Route builder *)

Inductive error := StopIteration | InfiniteArrival.

(** What one pass through the loop body leaves in the local variables
    [route] and [timeline], or the exception that ended it. *)
Inductive step_result :=
| Continue (route : list Location) (timeline : list Event)
| Raise (e : error).

Inductive outcome :=
| Returned (route : list Location) (total_time : R) (timeline : list Event)
| Raised (e : error)
| OutOfFuel.

(** Lines 121-125: the search without waiting, then with it. *)
Definition select_stop (orders : list Order) : M best :=
  r <~ find_nearest_valid_location orders false ;;
  match r.1.1 with
  | None => find_nearest_valid_location orders true
  | Some _ => ret r
  end.

(** [next(o for o in orders if o.id == order_id)] *)
Definition matching (orders : list Order) (order_id : string) : option Order :=
  find (λ o, bool_decide (id o = order_id)) orders.

(** Lines 134-153, the restaurant branch. *)
Definition handle_pickup (next_loc : Location) (order_id : string)
    (matching_order : Order) (timeline : list Event) : M (list Event) :=
  now <~ gets state_time ;;
  let prep_end_time := py_max now (prep_time (restaurant matching_order)) in
  timeline1 <~ (if bool_decide (now < prep_end_time)%R then
                  modify (set_time prep_end_time) ;;;
                  ret (timeline ++ [Waiting (name next_loc) order_id now prep_end_time])
                else ret timeline) ;;
  modify (add_picked_up order_id) ;;;
  now' <~ gets state_time ;;
  ret (timeline1 ++ [Pickup (name next_loc) order_id now']).

(** Lines 154-162, the customer branch. *)
Definition handle_delivery (next_loc : Location) (order_id : string)
    (timeline : list Event) : M (list Event) :=
  modify (add_delivered order_id) ;;;
  now <~ gets state_time ;;
  ret (timeline ++ [Delivery (name next_loc) order_id now]).

(** Lines 128-165, for a stop that was found. *)
Definition visit_stop (orders : list Order) (next_loc : Location) (order_id : string)
    (arrival_time : R) (route : list Location) (timeline : list Event) : M step_result :=
  modify (set_time arrival_time) ;;;
  match matching orders order_id with
  | None => ret (Raise StopIteration)
  | Some matching_order =>
      timeline' <~ (if bool_decide (next_loc = location (restaurant matching_order))
                    then handle_pickup next_loc order_id matching_order timeline
                    else handle_delivery next_loc order_id timeline) ;;
      modify (set_location next_loc) ;;;
      ret (Continue (route ++ [next_loc]) timeline')
  end.

(** The loop body.  The search sets its three results together, so a
    location always comes with an order id and a finite arrival time
    ([selected_shape], [iteration_continues]); the other shapes are there
    to make the function total and end the run. *)
Definition iteration (orders : list Order) (route : list Location)
    (timeline : list Event) : M step_result :=
  r <~ select_stop orders ;;
  match r with
  | (Some next_loc, Some order_id, Finite arrival_time) =>
      visit_stop orders next_loc order_id arrival_time route timeline
  | (Some _, None, _) => ret (Raise StopIteration)
  | (Some _, Some _, Infinity) => ret (Raise InfiniteArrival)
  | (None, _, _) => ret (Continue route timeline)
  end.

(** [while len(state.delivered_orders) < len(orders)]: [fuel] bounds the
    number of times the body runs. *)
Definition loop_guard (orders : list Order) (state : DeliveryState) : bool :=
  bool_decide (size (delivered_orders state) < length orders).

Fixpoint run_loop (fuel : nat) (orders : list Order) (route : list Location)
    (timeline : list Event) (state : DeliveryState) : outcome :=
  if loop_guard orders state then
    match fuel with
    | O => OutOfFuel
    | S fuel' =>
        match iteration orders route timeline state with
        | (Continue route' timeline', state') =>
            run_loop fuel' orders route' timeline' state'
        | (Raise e, _) => Raised e
        end
    end
  else Returned route (state_time state) timeline.

Definition optimize_route (driver_location : Location) (fuel : nat)
    (orders : list Order) : outcome :=
  run_loop fuel orders [] [] (new_state driver_location 0).

(** ** Definitions used to state the properties *)

(** One pass of the loop body of the search, as a function of the state it
    reads ([visit_order_run] shows it is what [visit_order] computes). *)
Definition visit_pure (state : DeliveryState) (waiting_required : bool)
    (b : best) (order : Order) : best :=
  let b1 :=
    if pickup_valid state order waiting_required
    then improve (location (restaurant order)) (id order)
                 (arrival_at state (location (restaurant order))) b
    else b in
  if delivery_valid state order
  then improve (customer order) (id order) (arrival_at state (customer order)) b1
  else b1.

(** A candidate stop: where, for which order, and when the driver would
    arrive. *)
Definition candidate : Type := Location * string * R.

(** The candidates one order contributes, in the order the search looks at
    them: the restaurant first, then the customer. *)
Definition candidates_of (state : DeliveryState) (waiting_required : bool)
    (order : Order) : list candidate :=
  (if pickup_valid state order waiting_required
   then [(location (restaurant order), id order,
          arrival_at state (location (restaurant order)))]
   else []) ++
  (if delivery_valid state order
   then [(customer order, id order, arrival_at state (customer order))]
   else []).

(** All eligible candidates, in input-list order. *)
Definition candidates (state : DeliveryState) (waiting_required : bool)
    (orders : list Order) : list candidate :=
  concat (map (candidates_of state waiting_required) orders).

Definition improve_with (b : best) (c : candidate) : best :=
  improve c.1.1 c.1.2 c.2 b.

(** The result of the two-pass search of [select_stop], as a function of
    the state it reads. *)
Definition selected (state : DeliveryState) (orders : list Order) : best :=
  let r := fold_left (visit_pure state false) orders no_candidate in
  match r.1.1 with
  | None => fold_left (visit_pure state true) orders no_candidate
  | Some _ => r
  end.

(** What [visit_stop] leaves behind when [m] is the matching order
    ([visit_stop_run]). *)
Definition stop_result (m : Order) (next_loc : Location) (order_id : string)
    (arrival_time : R) (route : list Location) (timeline : list Event)
    (state : DeliveryState) : step_result * DeliveryState :=
  if bool_decide (next_loc = location (restaurant m)) then
    let prep_end_time := py_max arrival_time (prep_time (restaurant m)) in
    (Continue (route ++ [next_loc])
       ((if bool_decide (arrival_time < prep_end_time)%R
         then timeline ++ [Waiting (name next_loc) order_id arrival_time prep_end_time]
         else timeline) ++ [Pickup (name next_loc) order_id prep_end_time]),
     mkState next_loc prep_end_time ({[order_id]} ∪ picked_up_orders state)
             (delivered_orders state) (restaurant_arrival_times state))
  else
    (Continue (route ++ [next_loc])
       (timeline ++ [Delivery (name next_loc) order_id arrival_time]),
     mkState next_loc arrival_time (picked_up_orders state)
             ({[order_id]} ∪ delivered_orders state) (restaurant_arrival_times state)).

(** The states a run of [optimize_route] goes through: the values of
    [route], [timeline] and [state] each time the loop condition is
    evaluated. *)
Inductive reachable (driver_location : Location) (orders : list Order) :
    list Location → list Event → DeliveryState → Prop :=
| reach_start :
    reachable driver_location orders [] [] (new_state driver_location 0)
| reach_step route timeline state route' timeline' state' :
    reachable driver_location orders route timeline state →
    loop_guard orders state = true →
    iteration orders route timeline state = (Continue route' timeline', state') →
    reachable driver_location orders route' timeline' state'.

(** The time an event carries; for a waiting period, its end. *)
Definition event_time (e : Event) : R :=
  match e with
  | Waiting _ _ _ end_time => end_time
  | Pickup _ _ time => time
  | Delivery _ _ time => time
  end.

(** The invariant of the loop that relates the timeline to the state. *)
Definition timeline_inv (timeline : list Event) (state : DeliveryState) : Prop :=
  (∀ e, e ∈ timeline → (event_time e <= state_time state)%R) ∧
  (∀ n oid t, Delivery n oid t ∈ timeline → oid ∈ delivered_orders state) ∧
  delivered_orders state ⊆ picked_up_orders state ∧
  (∀ n oid tp n' td,
     Pickup n oid tp ∈ timeline → Delivery n' oid td ∈ timeline → (tp <= td)%R).

(** The identifiers of an order list, as a set. *)
Definition order_ids (orders : list Order) : gset string :=
  list_to_set (map id orders).

(** Counting the events of one order in a timeline. *)
Definition is_pickup_of (oid : string) (e : Event) : bool :=
  match e with
  | Pickup _ o _ => bool_decide (o = oid)
  | _ => false
  end.

Definition is_delivery_of (oid : string) (e : Event) : bool :=
  match e with
  | Delivery _ o _ => bool_decide (o = oid)
  | _ => false
  end.

Fixpoint count_events (f : Event → bool) (timeline : list Event) : nat :=
  match timeline with
  | [] => 0
  | e :: rest => (if f e then 1 else 0) + count_events f rest
  end.

(** The invariant of the loop that counts stops and events, for order lists
    in which no customer is the restaurant's own [Location]. *)
Definition count_inv (orders : list Order) (route : list Location)
    (timeline : list Event) (state : DeliveryState) : Prop :=
  picked_up_orders state ⊆ order_ids orders ∧
  delivered_orders state ⊆ picked_up_orders state ∧
  length route = size (picked_up_orders state) + size (delivered_orders state) ∧
  ∀ oid,
    count_events (is_pickup_of oid) timeline
    = (if decide (oid ∈ picked_up_orders state) then 1 else 0) ∧
    count_events (is_delivery_of oid) timeline
    = (if decide (oid ∈ delivered_orders state) then 1 else 0).


(** Sample data, the coordinates of the program's own example. *)
Definition driver : Location := mkLocation "Driver" 12.9340 77.6150.
Definition r1_loc : Location := mkLocation "R1" 12.9350 77.6200.
Definition c1_loc : Location := mkLocation "C1" 12.9360 77.6250.
Definition r1 : Restaurant := mkRestaurant r1_loc 20.
Definition order1 : Order := mkOrder "1" r1 c1_loc.

(** A restaurant at the driver's coordinates and a second customer; an
    order of its own for them, and two orders that carry the same
    identifier. *)
Definition r2_loc : Location := mkLocation "R2" 12.9340 77.6150.
Definition c2_loc : Location := mkLocation "C2" 12.9310 77.6220.
Definition r2 : Restaurant := mkRestaurant r2_loc 15.
Definition order2 : Order := mkOrder "2" r2 c2_loc.
Definition same_id_orders : list Order := [order1; mkOrder "1" r2 c2_loc].

(** An order whose customer is handed the restaurant's own [Location]
    (a customer collecting at the counter). *)
Definition order_at_counter : Order := mkOrder "1" r1 r1_loc.


(** The first pass of a run on the single order [o]: the arrival at its
    restaurant, the time of its pickup, and the state the pass leaves. *)
Definition first_arrival (driver_location : Location) (o : Order) : R :=
  arrival_at (new_state driver_location 0) (location (restaurant o)).
Definition first_pickup_time (driver_location : Location) (o : Order) : R :=
  py_max (first_arrival driver_location o) (prep_time (restaurant o)).
Definition state_after_pickup (driver_location : Location) (o : Order) : DeliveryState :=
  mkState (location (restaurant o)) (first_pickup_time driver_location o)
          ({[id o]} ∪ ∅) ∅ ∅.

(** ** Definitions for the further properties *)

#[global] Instance Rle_decision (x y : R) : Decision (x <= y)%R := Rle_dec x y.

(** One pass through the loop body, by what it did: nothing, a pickup after
    a wait, a pickup without one, or a delivery.  [o] is the order the
    selected stop comes from and [m] the matching order. *)
Inductive pass (orders : list Order) (route : list Location)
    (timeline : list Event) (state : DeliveryState) :
    list Location → list Event → DeliveryState → Prop :=
| pass_idle :
    selected state orders = no_candidate →
    pass orders route timeline state route timeline state
| pass_wait o m loc w :
    o ∈ orders → matching orders (id o) = Some m → m ∈ orders →
    (pickup_valid state o w = true ∧ loc = location (restaurant o)) ∨
    (delivery_valid state o = true ∧ loc = customer o) →
    loc = location (restaurant m) →
    (arrival_at state loc < prep_time (restaurant m))%R →
    pass orders route timeline state
      (route ++ [loc])
      (timeline ++ [Waiting (name loc) (id o) (arrival_at state loc)
                      (prep_time (restaurant m));
                    Pickup (name loc) (id o) (prep_time (restaurant m))])
      (mkState loc (prep_time (restaurant m)) ({[id o]} ∪ picked_up_orders state)
               (delivered_orders state) (restaurant_arrival_times state))
| pass_pickup o m loc w :
    o ∈ orders → matching orders (id o) = Some m → m ∈ orders →
    (pickup_valid state o w = true ∧ loc = location (restaurant o)) ∨
    (delivery_valid state o = true ∧ loc = customer o) →
    loc = location (restaurant m) →
    (prep_time (restaurant m) <= arrival_at state loc)%R →
    pass orders route timeline state
      (route ++ [loc])
      (timeline ++ [Pickup (name loc) (id o) (arrival_at state loc)])
      (mkState loc (arrival_at state loc) ({[id o]} ∪ picked_up_orders state)
               (delivered_orders state) (restaurant_arrival_times state))
| pass_delivery o m loc w :
    o ∈ orders → matching orders (id o) = Some m → m ∈ orders →
    (pickup_valid state o w = true ∧ loc = location (restaurant o)) ∨
    (delivery_valid state o = true ∧ loc = customer o) →
    loc ≠ location (restaurant m) →
    pass orders route timeline state
      (route ++ [loc])
      (timeline ++ [Delivery (name loc) (id o) (arrival_at state loc)])
      (mkState loc (arrival_at state loc) (picked_up_orders state)
               ({[id o]} ∪ delivered_orders state) (restaurant_arrival_times state)).

(** The checks of [test_timeline_continuity] (unit_test.py, lines 149-158):
    [last_time] starts at 0; a waiting event must start at or after it and
    end after its start, any other event must be at or after it. *)
Fixpoint timeline_continuity (last_time : R) (timeline : list Event) : bool :=
  match timeline with
  | [] => true
  | Waiting _ _ start_time end_time :: rest =>
      bool_decide (last_time <= start_time)%R &&
      bool_decide (start_time < end_time)%R &&
      timeline_continuity end_time rest
  | Pickup _ _ time :: rest | Delivery _ _ time :: rest =>
      bool_decide (last_time <= time)%R && timeline_continuity time rest
  end.

(** The value of [last_time] when that loop ends. *)
Fixpoint final_time (last_time : R) (timeline : list Event) : R :=
  match timeline with
  | [] => last_time
  | e :: rest => final_time (event_time e) rest
  end.

(** [analyze_concurrent_efficiency] (integration_test.py, lines 142-159):
    the waiting periods of a timeline, and the check that none ends after
    the next one starts. *)
Fixpoint waiting_periods (timeline : list Event) : list (R * R) :=
  match timeline with
  | [] => []
  | Waiting _ _ start_time end_time :: rest =>
      (start_time, end_time) :: waiting_periods rest
  | _ :: rest => waiting_periods rest
  end.

Fixpoint no_overlap (periods : list (R * R)) : bool :=
  match periods with
  | p :: rest =>
      match rest with
      | q :: _ => negb (bool_decide (q.1 < p.2)%R) && no_overlap rest
      | [] => true
      end
  | [] => true
  end.

(** The location names of the pickup and delivery events of a timeline, in
    order. *)
Fixpoint stop_names (timeline : list Event) : list string :=
  match timeline with
  | [] => []
  | Waiting _ _ _ _ :: rest => stop_names rest
  | Pickup n _ _ :: rest | Delivery n _ _ :: rest => n :: stop_names rest
  end.

(** The order identifier an event carries. *)
Definition event_order_id (e : Event) : string :=
  match e with
  | Waiting _ oid _ _ => oid
  | Pickup _ oid _ => oid
  | Delivery _ oid _ => oid
  end.

(** The locations of an order list: every restaurant and every customer. *)
Definition order_location (orders : list Order) (loc : Location) : Prop :=
  ∃ o, o ∈ orders ∧ (loc = location (restaurant o) ∨ loc = customer o).

(** What an event says about the order list; [m] is the matching order of
    the identifier the event carries. *)
Definition event_sound (orders : list Order) (e : Event) : Prop :=
  match e with
  | Waiting n oid start_time end_time =>
      ∃ m, matching orders oid = Some m ∧ m ∈ orders ∧ id m = oid ∧
           n = name (location (restaurant m)) ∧
           end_time = prep_time (restaurant m) ∧ (start_time < end_time)%R
  | Pickup n oid time =>
      ∃ m, matching orders oid = Some m ∧ m ∈ orders ∧ id m = oid ∧
           n = name (location (restaurant m)) ∧
           (prep_time (restaurant m) <= time)%R
  | Delivery n oid time =>
      ∃ o, o ∈ orders ∧ id o = oid ∧
           (n = name (customer o) ∨ n = name (location (restaurant o)))
  end.

(** A stop the search may take for the order [o], as lines 86-88 and 97-98
    read: the restaurant of an order not yet picked up (with
    [waiting_required], only when the driver would arrive strictly before
    the preparation time), or the customer of an order picked up and not
    yet delivered. *)
Definition eligible_stop (state : DeliveryState) (waiting_required : bool)
    (o : Order) (loc : Location) : Prop :=
  (loc = location (restaurant o) ∧
   (id o ∉ picked_up_orders state) ∧
   (waiting_required = false ∨
    (state_time state + travel_time (state_location state) (location (restaurant o))
     < prep_time (restaurant o))%R))
  ∨
  (loc = customer o ∧
   (id o ∈ picked_up_orders state) ∧ (id o ∉ delivered_orders state)).



(** ** [haversine_distance] on binary64 numbers

    The same function on the floats the program computes with, following
    CPython: a call of the [math] module returns a float or raises. *)

Module Binary64.
Import Stdlib.Floats.Floats.
Local Open Scope float_scope.

Record Location := mkLocation { name : string; lat : float; lon : float }.

(** A float result, or the exception that replaced it. *)
Inductive result (A : Type) : Type :=
| Ok (a : A)
| ValueError
| OverflowError.
Arguments Ok {A} a.
Arguments ValueError {A}.
Arguments OverflowError {A}.

Definition bind {A B} (r : result A) (k : A → result B) : result B :=
  match r with
  | Ok a => k a
  | ValueError => ValueError
  | OverflowError => OverflowError
  end.

(** The functions the [math] module takes from the C library.  Their
    values are not fixed bit for bit by any standard; what is used of them
    here is their exact value at zero (C11, Annex F.10.1). *)
Record Libm := mkLibm {
  libm_sin : float → float;
  libm_cos : float → float;
  libm_asin : float → float;
  libm_pow : float → float → float;
  sin_zero : libm_sin 0 = 0;
  cos_zero : libm_cos 0 = 1;
  asin_zero : libm_asin 0 = 0
}.

(** A library with these values at zero (and nothing else right). *)
Definition libm_at_zero : Libm :=
  mkLibm (λ x, x) (λ _, 1) (λ x, x) (λ x _, x * x) eq_refl eq_refl eq_refl.

(** [math.radians]: [x * (pi / 180)], the constant rounded once. *)
Definition degToRad : float := 0x1.921fb54442d18p+1 / 180.
Definition radians (x : float) : float := x * degToRad.

(** [math.sin], [math.cos], [math.asin], [math.sqrt]: the C function, and
    [ValueError] when it turns a number into a NaN or a finite number into
    an infinity. *)
Definition math_1 (f : float → float) (x : float) : result float :=
  let r := f x in
  if is_nan r && negb (is_nan x) then ValueError
  else if is_infinity r && is_finite x then ValueError
  else Ok r.

(** [x ** 2] on a float. *)
Definition float_pow_2 (m : Libm) (iv : float) : result float :=
  if is_nan iv then Ok iv
  else if is_infinity iv then Ok infinity
  else if iv =? 0 then Ok 0
  else
    let iv := abs iv in
    if iv =? 1 then Ok 1
    else
      let ix := libm_pow m iv 2 in
      if is_infinity ix then OverflowError else Ok ix.

Definition haversine_distance (m : Libm) (loc1 loc2 : Location) : result float :=
  let lat1 := radians (lat loc1) in
  let lon1 := radians (lon loc1) in
  let lat2 := radians (lat loc2) in
  let lon2 := radians (lon loc2) in
  let dlat := lat2 - lat1 in
  let dlon := lon2 - lon1 in
  bind (math_1 (libm_sin m) (dlat / 2)) (λ s1,
  bind (float_pow_2 m s1) (λ p1,
  bind (math_1 (libm_cos m) lat1) (λ c1,
  bind (math_1 (libm_cos m) lat2) (λ c2,
  bind (math_1 (libm_sin m) (dlon / 2)) (λ s2,
  bind (float_pow_2 m s2) (λ p2,
  let a := p1 + c1 * c2 * p2 in
  bind (math_1 sqrt a) (λ root,
  bind (math_1 (libm_asin m) root) (λ angle,
  let c := 2 * angle in
  Ok (6371 * c))))))))).

Definition travel_time (m : Libm) (loc1 loc2 : Location) : result float :=
  bind (haversine_distance m loc1 loc2) (λ distance, Ok (distance / 20 * 60)).

(** Two places on the equator, at longitudes 15.000000000000004 and
    15.000000000000005 (written exactly). *)
Definition equator_a : Location := mkLocation "A" 0 0x1.e000000000002p+3.
Definition equator_b : Location := mkLocation "B" 0 0x1.e000000000003p+3.

End Binary64.

(** * Properties *)

(** ** Geospatial distance *)

Section Geo.
Local Open Scope R_scope.

(** In exact arithmetic the argument of the square root lies in [0, 1].
    After rounding it need not: see [Binary64]. *)
Lemma haversine_a_range loc1 loc2 : 0 <= haversine_a loc1 loc2 <= 1.
Proof.
  unfold haversine_a.
  set (p1 := radians (lat loc1)). set (p2 := radians (lat loc2)).
  set (d := (radians (lon loc2) - radians (lon loc1)) / 2).
  set (h := (p2 - p1) / 2).
  assert (Hh : sin h ^ 2 = (1 - cos (p2 - p1)) / 2).
  { replace (p2 - p1) with (2 * h) by (unfold h; lra).
    rewrite cos_2a_sin. lra. }
  rewrite Hh, cos_minus.
  pose proof (sin2_cos2 p1) as H1. pose proof (sin2_cos2 p2) as H2.
  pose proof (sin2_cos2 d) as Hd. unfold Rsqr in H1, H2, Hd.
  set (c1 := cos p1) in *. set (c2 := cos p2) in *.
  set (s1 := sin p1) in *. set (s2 := sin p2) in *.
  set (s := sin d) in *. set (c := cos d) in *.
  assert (Hs : 0 <= s ^ 2 <= 1) by (split; nra).
  set (q := s ^ 2) in *.
  assert (Ha : -1 <= c2 * c1 + s2 * s1 <= 1).
  { pose proof (Rle_0_sqr (c2 - c1)). pose proof (Rle_0_sqr (s2 - s1)).
    pose proof (Rle_0_sqr (c2 + c1)). pose proof (Rle_0_sqr (s2 + s1)).
    unfold Rsqr in *. split; nra. }
  assert (Hb : -1 <= c2 * c1 - s2 * s1 <= 1).
  { pose proof (Rle_0_sqr (c2 - c1)). pose proof (Rle_0_sqr (s2 + s1)).
    pose proof (Rle_0_sqr (c2 + c1)). pose proof (Rle_0_sqr (s2 - s1)).
    unfold Rsqr in *. split; nra. }
  clearbody q c1 c2 s1 s2. clear H1 H2 Hd Hh.
  split; nra.
Qed.

(** In exact arithmetic neither domain check fails. *)
Lemma haversine_distance_checked_total loc1 loc2 :
  haversine_distance_checked loc1 loc2 = Some (haversine_distance loc1 loc2).
Proof.
  pose proof (haversine_a_range loc1 loc2) as [H0 H1].
  unfold haversine_distance_checked, math_sqrt, math_asin, haversine_distance.
  rewrite bool_decide_eq_false_2 by lra.
  pose proof (sqrt_pos (haversine_a loc1 loc2)) as Hs.
  assert (Hs1 : sqrt (haversine_a loc1 loc2) <= 1).
  { rewrite <- sqrt_1. by apply sqrt_le_1_alt. }
  rewrite !bool_decide_eq_false_2 by lra. reflexivity.
Qed.

Lemma asin_sqrt_nonneg x : 0 <= asin (sqrt x).
Proof.
  pose proof (sqrt_pos x) as Hx.
  destruct (Rle_lt_dec 1 (sqrt x)) as [H1 | H1].
  - assert (Hle : asin 1 <= asin (sqrt x)).
    { unfold asin at 2. destruct (Rle_dec (sqrt x) (-1)); [lra |].
      destruct (Rle_dec 1 (sqrt x)); [rewrite asin_1; lra | lra]. }
    rewrite asin_1 in Hle. pose proof PI_RGT_0. lra.
  - rewrite asin_atan by lra.
    destruct (Req_dec (sqrt x) 0) as [-> | Hne].
    + unfold Rdiv. rewrite Rmult_0_l, atan_0. lra.
    + left. rewrite <- atan_0. apply atan_increasing.
      apply Rdiv_lt_0_compat; [lra |].
      apply sqrt_lt_R0.
      assert (sqrt x * sqrt x < 1 * 1) by (apply Rmult_le_0_lt_compat; lra).
      unfold Rsqr. lra.
Qed.

Lemma haversine_distance_nonneg loc1 loc2 : 0 <= haversine_distance loc1 loc2.
Proof.
  unfold haversine_distance, EARTH_RADIUS.
  pose proof (asin_sqrt_nonneg (haversine_a loc1 loc2)). lra.
Qed.

Lemma travel_time_nonneg loc1 loc2 : 0 <= travel_time loc1 loc2.
Proof.
  unfold travel_time, AVG_SPEED.
  pose proof (haversine_distance_nonneg loc1 loc2). lra.
Qed.

Lemma haversine_a_same loc1 loc2 :
  lat loc1 = lat loc2 → lon loc1 = lon loc2 → haversine_a loc1 loc2 = 0.
Proof.
  intros Hlat Hlon. unfold haversine_a. rewrite Hlat, Hlon.
  replace ((radians (lat loc2) - radians (lat loc2)) / 2) with 0 by lra.
  replace ((radians (lon loc2) - radians (lon loc2)) / 2) with 0 by lra.
  rewrite sin_0. lra.
Qed.

Lemma haversine_distance_of_a loc1 loc2 :
  haversine_a loc1 loc2 = 0 → haversine_distance loc1 loc2 = 0.
Proof.
  intros Ha. unfold haversine_distance. rewrite Ha, sqrt_0, asin_0. lra.
Qed.

Lemma travel_time_same loc1 loc2 :
  lat loc1 = lat loc2 → lon loc1 = lon loc2 → travel_time loc1 loc2 = 0.
Proof.
  intros Hlat Hlon. unfold travel_time.
  rewrite haversine_distance_of_a by (by apply haversine_a_same). lra.
Qed.

End Geo.

Section GeoClaims.
Local Open Scope R_scope.

(** 
   C5 (as the code has it): locations with identical coordinates are at
   distance zero, and the names play no part in the distance.  (The
   coordinates are real numbers here, so they are finite.)
*)
Theorem haversine_distance_same_coordinates (a b : Location) :
  lat a = lat b → lon a = lon b →
  haversine_distance a b = 0 ∧
  ∀ n1 n2, haversine_distance (mkLocation n1 (lat a) (lon a))
                              (mkLocation n2 (lat b) (lon b))
           = haversine_distance a b.
Proof.
  intros Hlat Hlon. split.
  - by apply haversine_distance_of_a, haversine_a_same.
  - reflexivity.
Qed.

Lemma haversine_distance_same_coordinates_witness :
  lat driver = lat r2_loc ∧ lon driver = lon r2_loc ∧
  haversine_distance driver r2_loc = 0.
Proof.
  split; [reflexivity |]. split; [reflexivity |].
  apply (haversine_distance_same_coordinates driver r2_loc); reflexivity.
Defined.

Lemma asin_sqrt_pos x : 0 < x → 0 < asin (sqrt x).
Proof.
  intros Hx. pose proof (sqrt_lt_R0 x Hx) as Hs.
  destruct (Rle_lt_dec 1 (sqrt x)) as [H1 | H1].
  - unfold asin. destruct (Rle_dec (sqrt x) (-1)); [lra |].
    destruct (Rle_dec 1 (sqrt x)); [| lra]. pose proof PI_RGT_0. lra.
  - rewrite asin_atan by lra.
    rewrite <- atan_0. apply atan_increasing.
    apply Rdiv_lt_0_compat; [lra |].
    apply sqrt_lt_R0.
    assert (sqrt x * sqrt x < 1 * 1) by (apply Rmult_le_0_lt_compat; lra).
    unfold Rsqr. lra.
Qed.

(** The restaurant R1 of the sample data is a positive drive away from the
    driver. *)
Lemma travel_time_driver_r1 : 0 < travel_time driver r1_loc.
Proof.
  assert (Ha : 0 < haversine_a driver r1_loc).
  { unfold haversine_a. simpl. pose proof PI_RGT_0 as Hpi.
    assert (H1 : 0 < sin ((radians 12.9350 - radians 12.9340) / 2)).
    { apply sin_gt_0; unfold radians; lra. }
    assert (H2 : 0 < cos (radians 12.9340)).
    { apply cos_gt_0; unfold radians; lra. }
    assert (H3 : 0 < cos (radians 12.9350)).
    { apply cos_gt_0; unfold radians; lra. }
    pose proof (pow2_ge_0 (sin ((radians 77.6200 - radians 77.6150) / 2))) as H4.
    assert (H5 : 0 < sin ((radians 12.9350 - radians 12.9340) / 2) ^ 2) by nra.
    assert (H6 : 0 < cos (radians 12.9340) * cos (radians 12.9350)) by nra.
    nra. }
  unfold travel_time, haversine_distance, EARTH_RADIUS, AVG_SPEED.
  pose proof (asin_sqrt_pos _ Ha). lra.
Qed.

End GeoClaims.

(** ** Candidate search *)

Lemma visit_order_run order w b state :
  visit_order order w b state = (visit_pure state w b order, state).
Proof.
  unfold visit_order, visit_pure, bind, gets, ret.
  destruct (pickup_valid state order w), (delivery_valid state order); reflexivity.
Qed.

Lemma scan_orders_run orders w b state :
  scan_orders orders w b state = (fold_left (visit_pure state w) orders b, state).
Proof.
  revert b. induction orders as [| order rest IH]; intros b; simpl.
  - reflexivity.
  - unfold bind. rewrite visit_order_run. apply IH.
Qed.

Lemma find_nearest_run orders w state :
  find_nearest_valid_location orders w state =
  (fold_left (visit_pure state w) orders no_candidate, state).
Proof. apply scan_orders_run. Qed.

Lemma visit_pure_candidates state w b order :
  visit_pure state w b order = fold_left improve_with (candidates_of state w order) b.
Proof.
  unfold visit_pure, candidates_of.
  destruct (pickup_valid state order w), (delivery_valid state order); reflexivity.
Qed.

Lemma fold_visit_candidates state w orders b :
  fold_left (visit_pure state w) orders b =
  fold_left improve_with (candidates state w orders) b.
Proof.
  revert b. induction orders as [| order rest IH]; intros b.
  - reflexivity.
  - unfold candidates. simpl. rewrite fold_left_app, <- visit_pure_candidates.
    apply IH.
Qed.

(** 
   C10: the search leaves the state object as it found it.
*)
Theorem find_nearest_valid_location_keeps_state orders waiting_required state :
  (find_nearest_valid_location orders waiting_required state).2 = state
  ∧ state_location (find_nearest_valid_location orders waiting_required state).2
    = state_location state
  ∧ state_time (find_nearest_valid_location orders waiting_required state).2
    = state_time state
  ∧ picked_up_orders (find_nearest_valid_location orders waiting_required state).2
    = picked_up_orders state
  ∧ delivered_orders (find_nearest_valid_location orders waiting_required state).2
    = delivered_orders state.
Proof. rewrite find_nearest_run. simpl. repeat split. Qed.

(** The pickup guard, read as a proposition. *)
Lemma pickup_valid_iff state order waiting_required :
  pickup_valid state order waiting_required = true ↔
  (id order ∉ picked_up_orders state) ∧
  (waiting_required = false ∨
   (waiting_required = true ∧
    (arrival_at state (location (restaurant order)) < prep_time (restaurant order))%R)).
Proof.
  unfold pickup_valid.
  rewrite andb_true_iff, orb_true_iff, negb_true_iff, !bool_decide_eq_true.
  destruct waiting_required; intuition congruence.
Qed.

(** The first strict minimum of a candidate list: position [i] holds the
    candidate, no candidate is earlier in time, and every candidate before
    position [i] is strictly later. *)
Lemma fold_improve_spec (cs : list candidate) :
  match cs with
  | [] => fold_left improve_with cs no_candidate = no_candidate
  | _ :: _ =>
      ∃ i loc oid t,
        cs !! i = Some (loc, oid, t) ∧
        fold_left improve_with cs no_candidate = (Some loc, Some oid, Finite t) ∧
        (∀ j c, cs !! j = Some c → (t <= c.2)%R) ∧
        (∀ j c, j < i → cs !! j = Some c → (t < c.2)%R)
  end.
Proof.
  induction cs as [| c cs IH] using rev_ind; [reflexivity |].
  assert (Hgoal : ∃ i loc oid t,
        (cs ++ [c]) !! i = Some (loc, oid, t) ∧
        fold_left improve_with (cs ++ [c]) no_candidate = (Some loc, Some oid, Finite t) ∧
        (∀ j c', (cs ++ [c]) !! j = Some c' → (t <= c'.2)%R) ∧
        (∀ j c', j < i → (cs ++ [c]) !! j = Some c' → (t < c'.2)%R)).
  { rewrite fold_left_app. simpl. destruct c as [[loc oid] t].
    destruct cs as [| c0 cs0].
    - exists 0, loc, oid, t. simpl. repeat split.
      + intros [| j] c' Hj; simpl in Hj; [| by destruct j].
        inversion Hj; subst; simpl. lra.
      + intros j c' Hj. lia.
    - destruct IH as (i & loc0 & oid0 & t0 & Hi & Hfold & Hmin & Hfirst).
      remember (c0 :: cs0) as l eqn:El. clear El. rewrite Hfold.
      unfold improve_with, improve. simpl.
      case_bool_decide as Hlt.
      + exists (length l), loc, oid, t. repeat split.
        * by rewrite list_lookup_middle.
        * intros j c' Hj. destruct (decide (j < length l)) as [Hjl | Hjl].
          -- rewrite lookup_app_l in Hj by done. specialize (Hmin _ _ Hj). lra.
          -- apply lookup_lt_Some in Hj as Hlen. rewrite length_app in Hlen.
             simpl in Hlen. assert (j = length l) as -> by lia.
             rewrite list_lookup_middle in Hj by done.
             inversion Hj; subst; simpl. lra.
        * intros j c' Hjl Hj. rewrite lookup_app_l in Hj by done.
          specialize (Hmin _ _ Hj). lra.
      + exists i, loc0, oid0, t0. repeat split.
        * apply lookup_lt_Some in Hi as Hlen. by rewrite lookup_app_l.
        * intros j c' Hj. destruct (decide (j < length l)) as [Hjl | Hjl].
          -- rewrite lookup_app_l in Hj by done. by apply (Hmin j).
          -- apply lookup_lt_Some in Hj as Hlen. rewrite length_app in Hlen.
             simpl in Hlen. assert (j = length l) as -> by lia.
             rewrite list_lookup_middle in Hj by done.
             inversion Hj; subst; simpl. lra.
        * intros j c' Hji Hj. apply lookup_lt_Some in Hi as Hlen.
          rewrite lookup_app_l in Hj by lia. by apply (Hfirst j). }
  destruct (cs ++ [c]) eqn:E; [by destruct cs | exact Hgoal].
Qed.

(** ** Route builder *)

Section Builder.
Local Open Scope R_scope.

Lemma py_max_Rmax a b : py_max a b = Rmax a b.
Proof.
  unfold py_max, Rmax. case_bool_decide; destruct (Rle_dec a b); lra.
Qed.

Lemma py_max_ge a b : a <= py_max a b.
Proof. rewrite py_max_Rmax. apply Rmax_l. Qed.

Lemma select_stop_run orders state :
  select_stop orders state = (selected state orders, state).
Proof.
  unfold select_stop, selected, bind. rewrite find_nearest_run. simpl.
  destruct (fold_left (visit_pure state false) orders no_candidate).1.1.
  - reflexivity.
  - apply find_nearest_run.
Qed.

Lemma handle_pickup_run next_loc order_id matching_order timeline state :
  handle_pickup next_loc order_id matching_order timeline state =
  let now := state_time state in
  let prep_end_time := py_max now (prep_time (restaurant matching_order)) in
  ((if bool_decide (now < prep_end_time)
    then timeline ++ [Waiting (name next_loc) order_id now prep_end_time]
    else timeline) ++ [Pickup (name next_loc) order_id prep_end_time],
   add_picked_up order_id (set_time prep_end_time state)).
Proof.
  unfold handle_pickup, bind, gets, modify, ret. simpl.
  case_bool_decide as Hlt; simpl; [reflexivity |].
  assert (py_max (state_time state) (prep_time (restaurant matching_order))
          = state_time state) as ->.
  { unfold py_max in *. case_bool_decide; [lra | reflexivity]. }
  by destruct state.
Qed.

Lemma visit_stop_run orders next_loc order_id arrival_time route timeline state m :
  matching orders order_id = Some m →
  visit_stop orders next_loc order_id arrival_time route timeline state =
  stop_result m next_loc order_id arrival_time route timeline state.
Proof.
  intros Hm. unfold visit_stop, stop_result, bind, modify, ret. rewrite Hm.
  case_bool_decide as Heq.
  - rewrite handle_pickup_run. reflexivity.
  - reflexivity.
Qed.

Lemma iteration_run orders route timeline state :
  iteration orders route timeline state =
  match selected state orders with
  | (Some next_loc, Some order_id, Finite arrival_time) =>
      visit_stop orders next_loc order_id arrival_time route timeline state
  | (Some _, None, _) => (Raise StopIteration, state)
  | (Some _, Some _, Infinity) => (Raise InfiniteArrival, state)
  | (None, _, _) => (Continue route timeline, state)
  end.
Proof.
  unfold iteration, bind. rewrite select_stop_run.
  destruct (selected state orders) as [[[l |] [o |]] [t |]]; reflexivity.
Qed.

(** 
   C9: for the empty order list the loop body is never entered (no fuel is
   needed) and the result is the empty route, time 0 and the empty timeline.
*)
Theorem optimize_route_empty driver_location fuel :
  optimize_route driver_location fuel [] = Returned [] 0 [].
Proof. destruct fuel; reflexivity. Qed.

(** 
   C6: when the selected stop is the restaurant of the matching order, the
   loop body takes prep_end_time = max(arrival_time, prep_time); if that is
   later than the arrival it records a waiting event from the arrival to
   prep_end_time and moves the clock there, otherwise it records none and
   the clock stays at the arrival time; then the order is marked picked up
   and the pickup event carries the clock's value.
*)
Theorem iteration_pickup_branch orders route timeline state
    next_loc order_id arrival_time matching_order :
  (select_stop orders state).1 = (Some next_loc, Some order_id, Finite arrival_time) →
  matching orders order_id = Some matching_order →
  next_loc = location (restaurant matching_order) →
  let prep_end_time := Rmax arrival_time (prep_time (restaurant matching_order)) in
  let picked := {[order_id]} ∪ picked_up_orders state in
  (prep_end_time > arrival_time →
   iteration orders route timeline state =
   (Continue (route ++ [next_loc])
      (timeline ++ [Waiting (name next_loc) order_id arrival_time prep_end_time;
                    Pickup (name next_loc) order_id prep_end_time]),
    mkState next_loc prep_end_time picked (delivered_orders state)
            (restaurant_arrival_times state)))
  ∧
  (¬ prep_end_time > arrival_time →
   iteration orders route timeline state =
   (Continue (route ++ [next_loc])
      (timeline ++ [Pickup (name next_loc) order_id arrival_time]),
    mkState next_loc arrival_time picked (delivered_orders state)
            (restaurant_arrival_times state))).
Proof.
  intros Hsel Hm Hloc prep_end_time picked.
  rewrite select_stop_run in Hsel. simpl in Hsel.
  rewrite iteration_run, Hsel, (visit_stop_run _ _ _ _ _ _ _ _ Hm).
  unfold stop_result. rewrite bool_decide_eq_true_2 by done. simpl.
  rewrite py_max_Rmax. fold prep_end_time.
  pose proof (Rmax_l arrival_time (prep_time (restaurant matching_order))) as Hge.
  fold prep_end_time in Hge.
  split; intros Hcmp.
  - rewrite bool_decide_eq_true_2 by lra. by rewrite <- app_assoc.
  - rewrite bool_decide_eq_false_2 by lra.
    assert (prep_end_time = arrival_time) as -> by lra. reflexivity.
Qed.

(** *** Where the selected stop comes from *)

Lemma elem_of_candidates_of state w o (c : candidate) :
  c ∈ candidates_of state w o →
  c.1.2 = id o ∧ c.2 = arrival_at state c.1.1 ∧
  ((pickup_valid state o w = true ∧ c.1.1 = location (restaurant o)) ∨
   (delivery_valid state o = true ∧ c.1.1 = customer o)).
Proof.
  unfold candidates_of. intros Hc.
  apply elem_of_app in Hc as [Hc | Hc].
  - destruct (pickup_valid state o w) eqn:E; [| by apply elem_of_nil in Hc].
    apply list_elem_of_singleton in Hc as ->. simpl. auto.
  - destruct (delivery_valid state o) eqn:E; [| by apply elem_of_nil in Hc].
    apply list_elem_of_singleton in Hc as ->. simpl. auto.
Qed.

Lemma elem_of_candidates state w orders (c : candidate) :
  c ∈ candidates state w orders ↔
  ∃ o, o ∈ orders ∧ c ∈ candidates_of state w o.
Proof.
  unfold candidates. induction orders as [| o rest IH]; simpl.
  - split; [by intros ?%elem_of_nil | by intros (o & ?%elem_of_nil & _)].
  - rewrite elem_of_app, IH. split.
    + intros [Hc | (o' & Ho' & Hc)]; [exists o | exists o']; split; try done.
      * by left.
      * by right.
    + intros (o' & [-> | Ho']%elem_of_cons & Hc); [by left | right; eauto].
Qed.

Lemma candidates_nonempty state w orders o :
  o ∈ orders →
  pickup_valid state o w = true ∨ delivery_valid state o = true →
  candidates state w orders ≠ [].
Proof.
  intros Ho Hv Hnil.
  assert (Hc : ∃ c, c ∈ candidates_of state w o).
  { unfold candidates_of. destruct Hv as [-> | ->].
    - eexists. apply elem_of_app. left. by apply list_elem_of_singleton.
    - eexists. apply elem_of_app. right. by apply list_elem_of_singleton. }
  destruct Hc as [c Hc].
  assert (Hin : c ∈ candidates state w orders) by (apply elem_of_candidates; eauto).
  rewrite Hnil in Hin. by apply elem_of_nil in Hin.
Qed.

Lemma search_result state w orders :
  match candidates state w orders with
  | [] => fold_left (visit_pure state w) orders no_candidate = no_candidate
  | _ :: _ =>
      ∃ c, c ∈ candidates state w orders ∧
           fold_left (visit_pure state w) orders no_candidate
           = (Some c.1.1, Some c.1.2, Finite c.2)
  end.
Proof.
  rewrite fold_visit_candidates.
  pose proof (fold_improve_spec (candidates state w orders)) as H.
  destruct (candidates state w orders) as [| c0 cs]; [done |].
  destruct H as (i & loc & oid & t & Hi & Hfold & _).
  exists (loc, oid, t). split; [| done].
  apply list_elem_of_lookup. eauto.
Qed.

(** The search sets its three results together. *)
Lemma selected_shape state orders :
  selected state orders = no_candidate ∨
  ∃ w c, c ∈ candidates state w orders ∧
         selected state orders = (Some c.1.1, Some c.1.2, Finite c.2).
Proof.
  unfold selected.
  pose proof (search_result state false orders) as Hf.
  destruct (candidates state false orders) as [| c0 cs] eqn:Ef.
  - rewrite Hf. simpl.
    pose proof (search_result state true orders) as Ht.
    destruct (candidates state true orders) as [| c1 cs1] eqn:Et.
    + by left.
    + destruct Ht as (c & Hc & ->). right. exists true, c. by rewrite Et.
  - destruct Hf as (c & Hc & ->). simpl. right. exists false, c. by rewrite Ef.
Qed.

Lemma matching_elem orders o :
  o ∈ orders → ∃ m, matching orders (id o) = Some m ∧ id m = id o ∧ m ∈ orders.
Proof.
  unfold matching. induction orders as [| o' rest IH]; intros Ho.
  - by apply elem_of_nil in Ho.
  - simpl. case_bool_decide as Heq.
    + exists o'. repeat split; [done | left].
    + apply elem_of_cons in Ho as [-> | Ho]; [done |].
      destruct (IH Ho) as (m & Hm & Hid & Hin). exists m. repeat split; [done.. | by right].
Qed.

Lemma matching_NoDup orders o :
  NoDup (map id orders) → o ∈ orders → matching orders (id o) = Some o.
Proof.
  unfold matching. induction orders as [| o' rest IH]; intros Hnd Ho.
  - by apply elem_of_nil in Ho.
  - simpl in *. apply NoDup_cons in Hnd as [Hnotin Hnd].
    apply elem_of_cons in Ho as [-> | Ho].
    + by rewrite bool_decide_eq_true_2.
    + rewrite bool_decide_eq_false_2; [by apply IH |].
      intros Heq. apply Hnotin. rewrite Heq. apply list_elem_of_In, in_map.
      by apply list_elem_of_In.
Qed.

(** One pass through the loop body: either nothing was found and nothing
    changes, or a candidate of some order [o] is visited. *)
Lemma iteration_cases orders route timeline state :
  (selected state orders = no_candidate ∧
   iteration orders route timeline state = (Continue route timeline, state))
  ∨
  ∃ w o m loc,
    o ∈ orders ∧ matching orders (id o) = Some m ∧ id m = id o ∧ m ∈ orders ∧
    ((pickup_valid state o w = true ∧ loc = location (restaurant o)) ∨
     (delivery_valid state o = true ∧ loc = customer o)) ∧
    iteration orders route timeline state
    = stop_result m loc (id o) (arrival_at state loc) route timeline state.
Proof.
  rewrite iteration_run.
  destruct (selected_shape state orders) as [-> | (w & c & Hc & ->)]; [by left |].
  right. apply elem_of_candidates in Hc as (o & Ho & Hc).
  apply elem_of_candidates_of in Hc as (Hid & Harr & Hkind).
  destruct (matching_elem orders o Ho) as (m & Hm & Hmid & Hmin).
  exists w, o, m, c.1.1. rewrite Hid, Harr.
  repeat split; [done.. |]. by apply visit_stop_run.
Qed.

(** In the model no pass raises: [next] finds its order and the arrival
    time is finite. *)
Lemma iteration_continues orders route timeline state :
  ∃ route' timeline' state',
    iteration orders route timeline state = (Continue route' timeline', state').
Proof.
  destruct (iteration_cases orders route timeline state)
    as [[_ ->] | (w & o & m & loc & _ & _ & _ & _ & _ & ->)]; [eauto |].
  unfold stop_result. case_bool_decide; eauto.
Qed.

Lemma arrival_at_ge state loc : state_time state <= arrival_at state loc.
Proof. unfold arrival_at. pose proof (travel_time_nonneg (state_location state) loc). lra. Qed.

Lemma iteration_time_mono orders route timeline state :
  state_time state <= state_time (iteration orders route timeline state).2.
Proof.
  destruct (iteration_cases orders route timeline state)
    as [[_ ->] | (w & o & m & loc & _ & _ & _ & _ & _ & ->)]; [simpl; lra |].
  pose proof (arrival_at_ge state loc) as Ha.
  unfold stop_result. case_bool_decide; simpl; [| done].
  pose proof (py_max_ge (arrival_at state loc) (prep_time (restaurant m))). lra.
Qed.

(** *** The loop invariant *)

Lemma timeline_inv_step orders route timeline state route' timeline' state' :
  NoDup (map id orders) →
  timeline_inv timeline state →
  iteration orders route timeline state = (Continue route' timeline', state') →
  timeline_inv timeline' state'.
Proof.
  intros Hnd (Htime & Hdel & Hsub & Hord) Hit.
  destruct (iteration_cases orders route timeline state)
    as [[_ Hsame] | (w & o & m & loc & Ho & Hm & _ & _ & Hkind & Hres)].
  { rewrite Hsame in Hit. inversion Hit; subst. by repeat split. }
  rewrite (matching_NoDup _ _ Hnd Ho) in Hm. inversion Hm; subst m. clear Hm.
  rewrite Hres in Hit. clear Hres. unfold stop_result in Hit.
  pose proof (arrival_at_ge state loc) as Hge.
  set (t := arrival_at state loc) in *.
  assert (Hnotdel : loc = location (restaurant o) → id o ∉ delivered_orders state).
  { intros Hloc. destruct Hkind as [[Hp _] | [Hd _]].
    - unfold pickup_valid in Hp. apply andb_true_iff in Hp as [Hp _].
      apply bool_decide_eq_true in Hp. intros Hin. by apply Hp, Hsub.
    - unfold delivery_valid in Hd. apply andb_true_iff in Hd as [_ Hd].
      by apply bool_decide_eq_true in Hd. }
  case_bool_decide as Hloc.
  - (* the restaurant branch *)
    specialize (Hnotdel Hloc).
    pose proof (py_max_ge t (prep_time (restaurant o))) as Hpe.
    set (pe := py_max t (prep_time (restaurant o))) in *.
    inversion Hit; subst route' timeline' state'. clear Hit. simpl.
    assert (Hev : ∀ e,
      e ∈ (if bool_decide (t < pe) then timeline ++ [Waiting (name loc) (id o) t pe]
           else timeline) ++ [Pickup (name loc) (id o) pe] →
      e ∈ timeline ∨ e = Waiting (name loc) (id o) t pe ∨ e = Pickup (name loc) (id o) pe).
    { intros e He. apply elem_of_app in He as [He | He].
      - case_bool_decide; [| by left].
        apply elem_of_app in He as [He | He]; [by left |].
        apply list_elem_of_singleton in He. auto.
      - apply list_elem_of_singleton in He. auto. }
    repeat split; simpl.
    + intros e He. apply Hev in He as [He | [-> | ->]]; simpl; [| lra..].
      specialize (Htime _ He). lra.
    + intros n oid td He. apply Hev in He as [He | [He | He]]; [eauto | done..].
    + intros x Hx. apply elem_of_union. right. by apply Hsub.
    + intros n oid tp n' td Hp Hd.
      apply Hev in Hd as [Hd | [Hd | Hd]]; [| done..].
      apply Hev in Hp as [Hp | [Hp | Hp]]; [eauto | done |].
      inversion Hp; subst. exfalso. apply Hnotdel. eauto.
  - (* the customer branch *)
    assert (Hpicked : id o ∈ picked_up_orders state).
    { destruct Hkind as [[_ Hp] | [Hd _]]; [done |].
      unfold delivery_valid in Hd. apply andb_true_iff in Hd as [Hd _].
      by apply bool_decide_eq_true in Hd. }
    inversion Hit; subst route' timeline' state'. clear Hit.
    repeat split; simpl.
    + intros e [He | He]%elem_of_app.
      * specialize (Htime _ He). lra.
      * apply list_elem_of_singleton in He as ->. simpl. lra.
    + intros n oid td [He | He]%elem_of_app.
      * apply Hdel in He. apply elem_of_union. by right.
      * apply list_elem_of_singleton in He. inversion He; subst.
        apply elem_of_union. left. by apply elem_of_singleton.
    + intros x [Hx | Hx]%elem_of_union; [| by apply Hsub].
      apply elem_of_singleton in Hx. by subst.
    + intros n oid tp n' td [Hp | Hp]%elem_of_app [Hd | Hd]%elem_of_app.
      * eauto.
      * apply list_elem_of_singleton in Hd. inversion Hd; subst.
        specialize (Htime _ Hp). simpl in Htime. lra.
      * by apply list_elem_of_singleton in Hp.
      * by apply list_elem_of_singleton in Hp.
Qed.

Lemma reachable_timeline_inv driver_location orders route timeline state :
  NoDup (map id orders) →
  reachable driver_location orders route timeline state →
  timeline_inv timeline state.
Proof.
  intros Hnd Hr. induction Hr as [| ? ? ? ? ? ? _ IH _ Hit].
  - repeat split; simpl.
    + intros e He. by apply elem_of_nil in He.
    + intros ? ? ? He. by apply elem_of_nil in He.
    + done.
    + intros ? ? ? ? ? He. by apply elem_of_nil in He.
  - eapply timeline_inv_step; eauto.
Qed.

(** A run that returns has gone through reachable states only. *)
Lemma run_loop_reachable driver_location orders fuel route timeline state
    route' total timeline' :
  reachable driver_location orders route timeline state →
  run_loop fuel orders route timeline state = Returned route' total timeline' →
  ∃ state', reachable driver_location orders route' timeline' state' ∧
            loop_guard orders state' = false ∧ total = state_time state'.
Proof.
  revert route timeline state.
  induction fuel as [| fuel IH]; intros route timeline state Hr Hrun; simpl in Hrun.
  - destruct (loop_guard orders state) eqn:Hg; [done |].
    inversion Hrun; subst. eauto.
  - destruct (loop_guard orders state) eqn:Hg.
    + destruct (iteration orders route timeline state) as [[r1 t1 | e] s1] eqn:Hit; [| done].
      eapply IH; [| exact Hrun]. eapply reach_step; eauto.
    + inversion Hrun; subst. eauto.
Qed.

(** 
   C8: throughout every run of optimize_route on an order list with
   pairwise-distinct identifiers (the uniqueness the Order type carries),
   the delivered set of the state is inside its picked-up set; and each
   pass through the loop body leaves the clock at or after its previous
   value, each of the two assignments to it moving it forward: the arrival
   time is not before the clock and the end of the preparation is not
   before the arrival.
*)
Theorem state_invariant driver_location orders route timeline state :
  reachable driver_location orders route timeline state →
  (NoDup (map id orders) → delivered_orders state ⊆ picked_up_orders state) ∧
  state_time state <= state_time (iteration orders route timeline state).2 ∧
  (∀ loc, state_time state <= arrival_at state loc) ∧
  (∀ t p, t <= py_max t p).
Proof.
  intros Hr. repeat split.
  - intros Hnd x Hx.
    destruct (reachable_timeline_inv _ _ _ _ _ Hnd Hr) as (_ & _ & Hsub & _).
    by apply Hsub.
  - apply iteration_time_mono.
  - apply arrival_at_ge.
  - apply py_max_ge.
Qed.

End Builder.

(** *** Termination *)

Lemma run_loop_unfold fuel orders route timeline state :
  run_loop fuel orders route timeline state =
  if loop_guard orders state then
    match fuel with
    | O => OutOfFuel
    | S fuel' =>
        match iteration orders route timeline state with
        | (Continue route' timeline', state') =>
            run_loop fuel' orders route' timeline' state'
        | (Raise e, _) => Raised e
        end
    end
  else Returned route (state_time state) timeline.
Proof. destruct fuel; reflexivity. Qed.

Lemma selected_found state orders :
  candidates state false orders ≠ [] → selected state orders ≠ no_candidate.
Proof.
  intros Hne. unfold selected.
  pose proof (search_result state false orders) as H.
  destruct (candidates state false orders) as [| c0 cs]; [done |].
  destruct H as (c & _ & ->). done.
Qed.

Lemma size_order_ids orders :
  NoDup (map id orders) → size (order_ids orders) = length orders.
Proof.
  intros Hnd. unfold order_ids. rewrite size_list_to_set by done.
  apply length_map.
Qed.

Lemma elem_of_order_ids orders x :
  x ∈ order_ids orders ↔ ∃ o, o ∈ orders ∧ id o = x.
Proof.
  unfold order_ids. rewrite elem_of_list_to_set, list_elem_of_In, in_map_iff.
  split; intros (o & H1 & H2); exists o.
  - by rewrite list_elem_of_In.
  - by rewrite <- list_elem_of_In.
Qed.

Lemma size_add (x : string) (X : gset string) :
  x ∉ X → size ({[x]} ∪ X) = S (size X).
Proof.
  intros Hx. rewrite size_union by (by apply disjoint_singleton_l).
  by rewrite size_singleton.
Qed.

(** While an order is undelivered, one pass through the loop body picks up
    or delivers exactly one order. *)
Lemma iteration_progress orders route timeline state :
  NoDup (map id orders) →
  (∀ o, o ∈ orders → customer o ≠ location (restaurant o)) →
  picked_up_orders state ⊆ order_ids orders →
  delivered_orders state ⊆ picked_up_orders state →
  loop_guard orders state = true →
  ∃ route' timeline' state',
    iteration orders route timeline state = (Continue route' timeline', state') ∧
    picked_up_orders state' ⊆ order_ids orders ∧
    delivered_orders state' ⊆ picked_up_orders state' ∧
    size (picked_up_orders state') + size (delivered_orders state')
    = S (size (picked_up_orders state) + size (delivered_orders state)) ∧
    length route' = S (length route).
Proof.
  intros Hnd Hdoor Hpick Hsub Hguard.
  apply bool_decide_eq_true in Hguard.
  rewrite <- (size_order_ids _ Hnd) in Hguard.
  (* some order is undelivered *)
  assert (Hundelivered : ∃ o, o ∈ orders ∧ id o ∉ delivered_orders state).
  { destruct (set_choose_or_empty (order_ids orders ∖ delivered_orders state))
      as [[x Hx] | Hempty].
    - apply elem_of_difference in Hx as [Hx Hnx].
      apply elem_of_order_ids in Hx as (o & Ho & <-). eauto.
    - assert (Hle : order_ids orders ⊆ delivered_orders state).
      { intros x Hx. destruct (decide (x ∈ delivered_orders state)); [done |].
        exfalso. eapply (not_elem_of_empty (C:=gset string) x).
        rewrite <- Hempty. by apply elem_of_difference. }
      apply subseteq_size in Hle. lia. }
  destruct Hundelivered as (o0 & Ho0 & Hnd0).
  assert (Hcand : candidates state false orders ≠ []).
  { apply (candidates_nonempty _ _ _ o0 Ho0).
    unfold pickup_valid, delivery_valid. simpl.
    destruct (decide (id o0 ∈ picked_up_orders state)) as [Hin | Hnin].
    - right. by rewrite !bool_decide_eq_true_2.
    - left. by rewrite bool_decide_eq_true_2. }
  apply selected_found in Hcand.
  destruct (iteration_cases orders route timeline state)
    as [[Hno _] | (w & o & m & loc & Ho & Hm & _ & _ & Hkind & Hres)]; [done |].
  rewrite (matching_NoDup _ _ Hnd Ho) in Hm. inversion Hm; subst m. clear Hm.
  rewrite Hres. unfold stop_result.
  assert (Hid : id o ∈ order_ids orders) by (apply elem_of_order_ids; eauto).
  destruct Hkind as [[Hp ->] | [Hd ->]].
  - (* the restaurant of an order not yet picked up *)
    unfold pickup_valid in Hp. apply andb_true_iff in Hp as [Hp _].
    apply bool_decide_eq_true in Hp.
    rewrite bool_decide_eq_true_2 by done.
    eexists _, _, _. split; [reflexivity |]. simpl. repeat split.
    + intros x [Hx | Hx]%elem_of_union; [| by apply Hpick].
      apply elem_of_singleton in Hx. by subst.
    + intros x Hx. apply elem_of_union. right. by apply Hsub.
    + rewrite size_add by done. lia.
    + rewrite length_app. simpl. lia.
  - (* the customer of an order picked up and not yet delivered *)
    unfold delivery_valid in Hd. apply andb_true_iff in Hd as [Hin Hnot].
    apply bool_decide_eq_true in Hin, Hnot.
    rewrite bool_decide_eq_false_2 by (by apply Hdoor).
    eexists _, _, _. split; [reflexivity |]. simpl. repeat split.
    + done.
    + intros x [Hx | Hx]%elem_of_union; [| by apply Hsub].
      apply elem_of_singleton in Hx. by subst.
    + rewrite size_add by done. lia.
    + rewrite length_app. simpl. lia.
Qed.

Lemma run_loop_terminates orders :
  NoDup (map id orders) →
  (∀ o, o ∈ orders → customer o ≠ location (restaurant o)) →
  ∀ k fuel route timeline state,
    picked_up_orders state ⊆ order_ids orders →
    delivered_orders state ⊆ picked_up_orders state →
    size (picked_up_orders state) + size (delivered_orders state) + k
    = 2 * length orders →
    k ≤ fuel →
    ∃ route' total timeline',
      run_loop fuel orders route timeline state = Returned route' total timeline' ∧
      length route' = length route + k.
Proof.
  intros Hnd Hdoor.
  induction k as [| k IH]; intros fuel route timeline state Hpick Hsub Hsize Hfuel;
    rewrite run_loop_unfold.
  - assert (Hg : loop_guard orders state = false).
    { apply bool_decide_eq_false.
      apply subseteq_size in Hpick as Hp. apply subseteq_size in Hsub as Hs.
      rewrite (size_order_ids _ Hnd) in Hp. lia. }
    rewrite Hg. eexists _, _, _. split; [reflexivity | lia].
  - destruct (loop_guard orders state) eqn:Hg.
    + destruct fuel as [| fuel]; [lia |].
      destruct (iteration_progress orders route timeline state Hnd Hdoor Hpick Hsub Hg)
        as (route' & timeline' & state' & -> & Hpick' & Hsub' & Hsize' & Hlen).
      destruct (IH fuel route' timeline' state' Hpick' Hsub') as (r & t & tl & Hrun & Hl);
        [lia | lia |].
      exists r, t, tl. split; [done | lia].
    + exfalso. apply bool_decide_eq_false in Hg.
      apply subseteq_size in Hpick as Hp. apply subseteq_size in Hsub as Hs.
      rewrite (size_order_ids _ Hnd) in Hp. lia.
Qed.

(** *** One pickup and one delivery for each order *)

Lemma count_events_app f l1 l2 :
  count_events f (l1 ++ l2) = count_events f l1 + count_events f l2.
Proof. induction l1 as [| e l1 IH]; simpl; [done | rewrite IH; lia]. Qed.

Lemma count_inv_step orders route timeline state route' timeline' state' :
  NoDup (map id orders) →
  (∀ o, o ∈ orders → customer o ≠ location (restaurant o)) →
  count_inv orders route timeline state →
  iteration orders route timeline state = (Continue route' timeline', state') →
  count_inv orders route' timeline' state'.
Proof.
  intros Hnd Hdoor (Hpick & Hsub & Hlen & Hcount) Hit.
  destruct (iteration_cases orders route timeline state)
    as [[_ Hsame] | (w & o & m & loc & Ho & Hm & _ & _ & Hkind & Hres)].
  { rewrite Hsame in Hit. inversion Hit; subst. unfold count_inv. eauto. }
  rewrite (matching_NoDup _ _ Hnd Ho) in Hm. inversion Hm; subst m. clear Hm.
  rewrite Hres in Hit. clear Hres. unfold stop_result in Hit.
  assert (Hid : id o ∈ order_ids orders) by (apply elem_of_order_ids; eauto).
  destruct Hkind as [[Hp ->] | [Hd ->]].
  - unfold pickup_valid in Hp. apply andb_true_iff in Hp as [Hp _].
    apply bool_decide_eq_true in Hp.
    rewrite bool_decide_eq_true_2 in Hit by done.
    inversion Hit; subst route' timeline' state'. clear Hit.
    unfold count_inv. cbn [picked_up_orders delivered_orders].
    split; [| split; [| split]].
    + intros x [Hx | Hx]%elem_of_union; [| by apply Hpick].
      apply elem_of_singleton in Hx. by subst.
    + intros x Hx. apply elem_of_union. right. by apply Hsub.
    + rewrite length_app, size_add by done. simpl. lia.
    + intros oid. destruct (Hcount oid) as [Hcp Hcd].
      rewrite !count_events_app. split.
      * assert (Hw : count_events (is_pickup_of oid)
                  (if bool_decide
                        (arrival_at state (location (restaurant o))
                         < py_max (arrival_at state (location (restaurant o)))
                             (prep_time (restaurant o)))%R
                   then timeline ++
                        [Waiting (name (location (restaurant o))) (id o)
                           (arrival_at state (location (restaurant o)))
                           (py_max (arrival_at state (location (restaurant o)))
                              (prep_time (restaurant o)))]
                   else timeline)
                = count_events (is_pickup_of oid) timeline).
        { case_bool_decide; [| done]. rewrite count_events_app. simpl. lia. }
        rewrite Hw, Hcp. simpl.
        destruct (decide (oid ∈ picked_up_orders state)) as [Hin | Hnin].
        -- rewrite decide_True by (apply elem_of_union; by right).
           rewrite bool_decide_eq_false_2 by (intros Heq; apply Hp; by rewrite Heq).
           lia.
        -- destruct (decide (id o = oid)) as [Heq | Heq];
             [rewrite (bool_decide_eq_true_2 _ Heq)
             | rewrite (bool_decide_eq_false_2 _ Heq)].
           ++ rewrite decide_True; [lia |].
              apply elem_of_union. left. by apply elem_of_singleton.
           ++ rewrite decide_False; [lia |].
              intros [Hx | Hx]%elem_of_union; [| done].
              apply elem_of_singleton in Hx. by subst.
      * rewrite <- Hcd. simpl. case_bool_decide; [| lia].
        rewrite count_events_app. simpl. lia.
  - unfold delivery_valid in Hd. apply andb_true_iff in Hd as [Hin Hnot].
    apply bool_decide_eq_true in Hin, Hnot.
    rewrite bool_decide_eq_false_2 in Hit by (by apply Hdoor).
    inversion Hit; subst route' timeline' state'. clear Hit.
    unfold count_inv. cbn [picked_up_orders delivered_orders].
    split; [| split; [| split]].
    + done.
    + intros x [Hx | Hx]%elem_of_union; [| by apply Hsub].
      apply elem_of_singleton in Hx. by subst.
    + rewrite length_app, size_add by done. simpl. lia.
    + intros oid. destruct (Hcount oid) as [Hcp Hcd].
      rewrite !count_events_app. split.
      * rewrite Hcp. simpl. lia.
      * rewrite Hcd. simpl.
        destruct (decide (oid ∈ delivered_orders state)) as [Hind | Hnind].
        -- rewrite decide_True by (apply elem_of_union; by right).
           rewrite bool_decide_eq_false_2 by (intros Heq; apply Hnot; by rewrite Heq).
           lia.
        -- destruct (decide (id o = oid)) as [Heq | Heq];
             [rewrite (bool_decide_eq_true_2 _ Heq)
             | rewrite (bool_decide_eq_false_2 _ Heq)].
           ++ rewrite decide_True; [lia |].
              apply elem_of_union. left. by apply elem_of_singleton.
           ++ rewrite decide_False; [lia |].
              intros [Hx | Hx]%elem_of_union; [| done].
              apply elem_of_singleton in Hx. by subst.
Qed.

Lemma reachable_count_inv driver_location orders route timeline state :
  NoDup (map id orders) →
  (∀ o, o ∈ orders → customer o ≠ location (restaurant o)) →
  reachable driver_location orders route timeline state →
  count_inv orders route timeline state.
Proof.
  intros Hnd Hdoor Hr. induction Hr as [| ? ? ? ? ? ? _ IH _ Hit].
  - unfold count_inv, new_state. cbn [picked_up_orders delivered_orders].
    split; [| split; [| split]].
    + intros x Hx. by apply not_elem_of_empty in Hx.
    + done.
    + rewrite size_empty. reflexivity.
    + intros oid. rewrite decide_False by apply not_elem_of_empty. done.
  - eapply count_inv_step; eauto.
Qed.

(** In exact arithmetic, with pairwise-distinct identifiers and no customer
    at the restaurant's own [Location], the run returns within 2N passes,
    the route has 2N stops and the timeline has one pickup and one
    delivery for each order. *)
Lemma optimize_route_complete driver_location orders :
  NoDup (map id orders) →
  (∀ o, o ∈ orders → customer o ≠ location (restaurant o)) →
  ∃ route total timeline,
    optimize_route driver_location (2 * length orders) orders
    = Returned route total timeline ∧
    length route = 2 * length orders ∧
    ∀ o, o ∈ orders →
      count_events (is_pickup_of (id o)) timeline = 1 ∧
      count_events (is_delivery_of (id o)) timeline = 1.
Proof.
  intros Hnd Hdoor.
  destruct (run_loop_terminates orders Hnd Hdoor (2 * length orders)
              (2 * length orders) [] [] (new_state driver_location 0))
    as (route & total & timeline & Hrun & Hlen).
  { intros x Hx. by apply not_elem_of_empty in Hx. }
  { done. }
  { cbn [picked_up_orders delivered_orders new_state]. rewrite size_empty. lia. }
  { lia. }
  exists route, total, timeline. split; [exact Hrun |]. split; [exact Hlen |].
  destruct (run_loop_reachable driver_location _ _ _ _ _ _ _ _
              (reach_start _ _) Hrun) as (state' & Hreach & Hg & _).
  destruct (reachable_count_inv _ _ _ _ _ Hnd Hdoor Hreach)
    as (Hpick & Hsub & Hl & Hcount).
  apply bool_decide_eq_false in Hg.
  rewrite <- (size_order_ids _ Hnd) in Hg.
  assert (Hdel : ∀ x, x ∈ order_ids orders → x ∈ delivered_orders state').
  { assert (Hle : delivered_orders state' ⊆ order_ids orders).
    { intros x Hx. by apply Hpick, Hsub. }
    assert (Heq : delivered_orders state' = order_ids orders).
    { apply set_subseteq_size_eq; [done | lia]. }
    intros x Hx. by rewrite Heq. }
  intros o Ho.
  assert (Hin : id o ∈ delivered_orders state').
  { apply Hdel, elem_of_order_ids. eauto. }
  destruct (Hcount (id o)) as [Hcp Hcd].
  rewrite Hcp, Hcd.
  rewrite !decide_True; [done | done | by apply Hsub].
Qed.

(** *** Runs on one order *)

Section SingleOrder.
Local Open Scope R_scope.

Variable driver_location : Location.
Variable o : Order.

Local Abbreviation rl := (location (restaurant o)).
Local Abbreviation t1 := (first_arrival driver_location o).
Local Abbreviation pe := (first_pickup_time driver_location o).
Local Abbreviation state1 := (state_after_pickup driver_location o).

Lemma selected_fresh :
  selected (new_state driver_location 0) [o] = (Some rl, Some (id o), Finite t1).
Proof.
  unfold selected. simpl. unfold visit_pure, pickup_valid, delivery_valid. simpl.
  rewrite (bool_decide_eq_true_2 (id o ∉ ∅)) by apply not_elem_of_empty.
  rewrite (bool_decide_eq_false_2 (id o ∈ ∅)) by apply not_elem_of_empty.
  reflexivity.
Qed.

Lemma matching_single : matching [o] (id o) = Some o.
Proof. unfold matching. simpl. by rewrite bool_decide_eq_true_2. Qed.

Lemma iteration_fresh route timeline :
  iteration [o] route timeline (new_state driver_location 0) =
  (Continue (route ++ [rl])
     ((if bool_decide (t1 < pe) then timeline ++ [Waiting (name rl) (id o) t1 pe]
       else timeline) ++ [Pickup (name rl) (id o) pe]),
   state1).
Proof.
  rewrite iteration_run, selected_fresh, (visit_stop_run _ _ _ _ _ _ _ _ matching_single).
  unfold stop_result. by rewrite bool_decide_eq_true_2.
Qed.

Lemma selected_picked_up :
  selected state1 [o] = (Some (customer o), Some (id o), Finite (arrival_at state1 (customer o))).
Proof.
  assert (Hin : id o ∈ ({[id o]} ∪ ∅ : gset string)).
  { apply elem_of_union. left. by apply elem_of_singleton. }
  unfold selected. simpl. unfold visit_pure, pickup_valid, delivery_valid. simpl.
  rewrite (bool_decide_eq_false_2 (id o ∉ {[id o]} ∪ ∅)) by (intros H; by apply H).
  rewrite (bool_decide_eq_true_2 (id o ∈ {[id o]} ∪ ∅)) by done.
  rewrite (bool_decide_eq_true_2 (id o ∉ ∅)) by apply not_elem_of_empty.
  reflexivity.
Qed.

Lemma guard_fresh : loop_guard [o] (new_state driver_location 0) = true.
Proof.
  apply bool_decide_eq_true. unfold new_state. cbn [delivered_orders length].
  rewrite size_empty. lia.
Qed.

Lemma guard_picked_up : loop_guard [o] state1 = true.
Proof.
  apply bool_decide_eq_true. unfold state_after_pickup. cbn [delivered_orders length].
  rewrite size_empty. lia.
Qed.

(** The customer is not the restaurant's own [Location]: two stops. *)
Lemma optimize_route_single :
  customer o ≠ rl →
  optimize_route driver_location 2 [o] =
  Returned [rl; customer o] (arrival_at state1 (customer o))
    ((if bool_decide (t1 < pe) then [Waiting (name rl) (id o) t1 pe] else []) ++
     [Pickup (name rl) (id o) pe;
      Delivery (name (customer o)) (id o) (arrival_at state1 (customer o))]).
Proof.
  intros Hne. unfold optimize_route.
  rewrite run_loop_unfold, guard_fresh, iteration_fresh.
  rewrite run_loop_unfold, guard_picked_up.
  rewrite iteration_run, selected_picked_up,
    (visit_stop_run _ _ _ _ _ _ _ _ matching_single).
  unfold stop_result. rewrite bool_decide_eq_false_2 by done.
  rewrite run_loop_unfold.
  assert (Hg : ∀ l t, loop_guard [o]
            (mkState l t ({[id o]} ∪ ∅) ({[id o]} ∪ ∅) ∅) = false).
  { intros l t. apply bool_decide_eq_false. cbn [delivered_orders length].
    rewrite size_union by (apply disjoint_empty_r).
    rewrite size_singleton, size_empty. lia. }
  rewrite Hg. cbn [state_time]. f_equal.
  case_bool_decide; reflexivity.
Qed.

(** The customer is the restaurant's own [Location]: the second stop is
    taken for the restaurant again, nothing is ever delivered and the loop
    condition stays true. *)
Lemma run_loop_at_counter fuel route timeline state :
  customer o = rl →
  delivered_orders state = ∅ →
  run_loop fuel [o] route timeline state = OutOfFuel.
Proof.
  intros Hsame. revert route timeline state.
  induction fuel as [| fuel IH]; intros route timeline state Hd;
    rewrite run_loop_unfold.
  - assert (loop_guard [o] state = true) as ->; [| done].
    apply bool_decide_eq_true. rewrite Hd, size_empty. cbn [length]. lia.
  - assert (loop_guard [o] state = true) as ->.
    { apply bool_decide_eq_true. rewrite Hd, size_empty. cbn [length]. lia. }
    destruct (iteration_cases [o] route timeline state)
      as [[_ ->] | (w & o' & m & loc & Ho & Hm & _ & _ & Hkind & ->)].
    + by apply IH.
    + apply list_elem_of_singleton in Ho as ->.
      rewrite matching_single in Hm. inversion Hm; subst m.
      assert (loc = rl) as -> by (destruct Hkind as [[_ ->] | [_ ->]]; done).
      unfold stop_result. rewrite bool_decide_eq_true_2 by done.
      by apply IH.
Qed.

(** The second pass on one order whose customer is not the restaurant's own
    [Location]: the delivery. *)
Lemma iteration_picked_up route timeline :
  customer o ≠ rl →
  iteration [o] route timeline state1 =
  (Continue (route ++ [customer o])
     (timeline ++ [Delivery (name (customer o)) (id o) (arrival_at state1 (customer o))]),
   mkState (customer o) (arrival_at state1 (customer o))
           ({[id o]} ∪ ∅) ({[id o]} ∪ ∅) ∅).
Proof.
  intros Hne.
  rewrite iteration_run, selected_picked_up,
    (visit_stop_run _ _ _ _ _ _ _ _ matching_single).
  unfold stop_result. by rewrite bool_decide_eq_false_2.
Qed.

(** The state in which the run on such an order ends. *)
Lemma reachable_single_delivered :
  customer o ≠ rl →
  reachable driver_location [o] [rl; customer o]
    ((if bool_decide (t1 < pe) then [Waiting (name rl) (id o) t1 pe] else []) ++
     [Pickup (name rl) (id o) pe;
      Delivery (name (customer o)) (id o) (arrival_at state1 (customer o))])
    (mkState (customer o) (arrival_at state1 (customer o))
             ({[id o]} ∪ ∅) ({[id o]} ∪ ∅) ∅).
Proof.
  intros Hne.
  eapply reach_step; [| apply guard_picked_up |].
  - eapply reach_step; [apply reach_start | apply guard_fresh | apply iteration_fresh].
  - rewrite (iteration_picked_up _ _ Hne). f_equal. f_equal.
    case_bool_decide; reflexivity.
Qed.

End SingleOrder.

(** *** The claims on whole runs *)

(** 
   C2, at the failing input: order "1" is to be handed over at the
   restaurant's own Location.  However many passes the loop is given, the
   run has not returned: the second stop is handled as a pickup again and
   the delivered set stays empty.
*)
Theorem optimize_route_at_counter_runs_forever fuel :
  optimize_route driver fuel [order_at_counter] = OutOfFuel.
Proof.
  unfold optimize_route. by apply run_loop_at_counter.
Qed.

Lemma selected_in_transit (o : Order) state :
  id o ∈ picked_up_orders state →
  id o ∉ delivered_orders state →
  selected state [o]
  = (Some (customer o), Some (id o), Finite (arrival_at state (customer o))).
Proof.
  intros Hin Hnot.
  unfold selected. simpl. unfold visit_pure, pickup_valid, delivery_valid.
  rewrite (bool_decide_eq_false_2 (id o ∉ picked_up_orders state))
    by (intros H; by apply H).
  rewrite (bool_decide_eq_true_2 (id o ∈ picked_up_orders state)) by done.
  rewrite (bool_decide_eq_true_2 (id o ∉ delivered_orders state)) by done.
  reflexivity.
Qed.

(** 
   C3, at the same failing input: for every k the run reaches a state
   whose route has k+1 entries, more than the 2 stops of one order, while
   nothing has been delivered.
*)
Theorem route_grows_at_counter (k : nat) :
  ∃ route timeline state,
    reachable driver [order_at_counter] route timeline state ∧
    length route = S k ∧
    "1" ∈ picked_up_orders state ∧
    delivered_orders state = ∅.
Proof.
  induction k as [| k (route & timeline & state & Hr & Hlen & Hin & Hd)].
  - eexists _, _, _. split; [| split; [| split]].
    + eapply reach_step; [apply reach_start | apply guard_fresh |].
      apply iteration_fresh.
    + reflexivity.
    + cbn [picked_up_orders]. apply elem_of_union. left. by apply elem_of_singleton.
    + reflexivity.
  - assert (Hg : loop_guard [order_at_counter] state = true).
    { apply bool_decide_eq_true. rewrite Hd, size_empty. cbn [length]. lia. }
    assert (Hnot : id order_at_counter ∉ delivered_orders state).
    { rewrite Hd. apply not_elem_of_empty. }
    pose proof (iteration_run [order_at_counter] route timeline state) as Hit.
    rewrite (selected_in_transit order_at_counter state Hin Hnot) in Hit.
    rewrite (visit_stop_run _ _ _ _ _ _ _ _ (matching_single order_at_counter)) in Hit.
    unfold stop_result in Hit. rewrite bool_decide_eq_true_2 in Hit by done.
    eexists _, _, _. split; [| split; [| split]].
    + eapply reach_step; [exact Hr | exact Hg | exact Hit].
    + rewrite length_app. simpl. lia.
    + cbn [picked_up_orders]. apply elem_of_union. by right.
    + exact Hd.
Qed.


Lemma iteration_pickup_branch_witness :
  (select_stop [order2] (new_state driver 0)).1 = (Some r2_loc, Some "2", Finite 0) ∧
  matching [order2] "2" = Some order2 ∧
  r2_loc = location (restaurant order2) ∧
  iteration [order2] [] [] (new_state driver 0) =
  (Continue [r2_loc]
     [Waiting "R2" "2" 0 (Rmax 0 15); Pickup "R2" "2" (Rmax 0 15)],
   mkState r2_loc (Rmax 0 15) ({["2"]} ∪ ∅) ∅ ∅).
Proof.
  assert (Harr : first_arrival driver order2 = 0%R).
  { unfold first_arrival, arrival_at. cbn [state_time state_location new_state].
    rewrite (travel_time_same driver (location (restaurant order2))) by reflexivity.
    lra. }
  assert (Hsel : (select_stop [order2] (new_state driver 0)).1
                 = (Some r2_loc, Some "2", Finite 0)).
  { rewrite select_stop_run. cbn [fst].
    rewrite (selected_fresh driver order2), Harr. reflexivity. }
  assert (Hm : matching [order2] "2" = Some order2) by apply (matching_single order2).
  split; [exact Hsel |]. split; [exact Hm |]. split; [reflexivity |].
  apply (iteration_pickup_branch [order2] [] [] (new_state driver 0)
           r2_loc "2" 0%R order2 Hsel Hm eq_refl).
  cbn [prep_time restaurant order2 r2]. unfold Rmax.
  destruct (Rle_dec 0 15); lra.
Defined.

Lemma state_invariant_witness :
  ∃ timeline state,
    reachable driver [order1] [r1_loc; c1_loc] timeline state ∧
    NoDup (map id [order1]) ∧
    "1" ∈ delivered_orders state ∧
    delivered_orders state ⊆ picked_up_orders state.
Proof.
  assert (Hne : customer order1 ≠ location (restaurant order1)) by discriminate.
  pose proof (reachable_single_delivered driver order1 Hne) as Hr.
  assert (Hnd : NoDup (map id [order1])).
  { apply NoDup_cons. split; [apply not_elem_of_nil | apply NoDup_nil_2]. }
  eexists _, _. split; [exact Hr |]. split; [exact Hnd |]. split.
  - cbn [delivered_orders]. apply elem_of_union. left. by apply elem_of_singleton.
  - by apply (state_invariant driver [order1] _ _ _ Hr).
Defined.

(** Why the identifiers must be pairwise distinct for the delivered set to
    stay inside the picked-up set: two orders carry the identifier "1", the
    nearer restaurant belongs to the second of them, the matching order is
    the first, so the stop is handled as a delivery. *)
Lemma delivered_not_picked_up_same_id :
  ∃ route timeline state,
    reachable driver same_id_orders route timeline state ∧
    ¬ (delivered_orders state ⊆ picked_up_orders state).
Proof.
  assert (Hsel : selected (new_state driver 0) same_id_orders
                 = (Some r2_loc, Some "1", Finite (arrival_at (new_state driver 0) r2_loc))).
  { unfold selected, same_id_orders. simpl.
    unfold visit_pure, pickup_valid, delivery_valid. simpl.
    rewrite !(bool_decide_eq_true_2 ("1" ∉ ∅)) by apply not_elem_of_empty.
    rewrite !(bool_decide_eq_false_2 ("1" ∈ ∅)) by apply not_elem_of_empty.
    simpl. unfold improve. simpl.
    assert (Hlt : (arrival_at (new_state driver 0) r2_loc
                   < arrival_at (new_state driver 0) r1_loc)%R).
    { unfold arrival_at. simpl.
      rewrite (travel_time_same driver r2_loc) by reflexivity.
      pose proof travel_time_driver_r1. lra. }
    by rewrite (bool_decide_eq_true_2 _ Hlt). }
  assert (Hm : matching same_id_orders "1" = Some order1).
  { reflexivity. }
  eexists _, _, _. split.
  - eapply reach_step; [apply reach_start | |].
    + apply bool_decide_eq_true. unfold new_state.
      cbn [delivered_orders length same_id_orders]. rewrite size_empty. lia.
    + rewrite iteration_run, Hsel, (visit_stop_run _ _ _ _ _ _ _ _ Hm).
      unfold stop_result. rewrite bool_decide_eq_false_2 by discriminate.
      reflexivity.
  - cbn [delivered_orders picked_up_orders new_state]. intros Hsub.
    apply (not_elem_of_empty (C:=gset string) "1"), Hsub.
    apply elem_of_union. left. by apply elem_of_singleton.
Qed.

(** * Further properties *)

(** ** Geospatial distance *)

Section GeoMore.
Local Open Scope R_scope.

Lemma haversine_a_sym loc1 loc2 : haversine_a loc1 loc2 = haversine_a loc2 loc1.
Proof.
  unfold haversine_a.
  replace ((radians (lat loc1) - radians (lat loc2)) / 2)
    with (- ((radians (lat loc2) - radians (lat loc1)) / 2)) by lra.
  replace ((radians (lon loc1) - radians (lon loc2)) / 2)
    with (- ((radians (lon loc2) - radians (lon loc1)) / 2)) by lra.
  rewrite !sin_neg. ring.
Qed.

(** 
   X1: the distance is symmetric in its two locations.
*)
Theorem haversine_distance_sym loc1 loc2 :
  haversine_distance loc1 loc2 = haversine_distance loc2 loc1.
Proof. unfold haversine_distance. by rewrite haversine_a_sym. Qed.

(** 
   X3: the distance is never negative and never more than half the
   circumference of the sphere, pi times the Earth radius.
*)
Theorem haversine_distance_bounds loc1 loc2 :
  0 <= haversine_distance loc1 loc2 <= EARTH_RADIUS * PI.
Proof.
  split; [apply haversine_distance_nonneg |].
  unfold haversine_distance, EARTH_RADIUS.
  pose proof (asin_bound (sqrt (haversine_a loc1 loc2))) as [_ Hup]. lra.
Qed.

End GeoMore.

(** ** Candidate search *)

Section SearchMore.
Local Open Scope R_scope.

Lemma candidates_nil_iff state w orders :
  candidates state w orders = [] ↔
  ∀ o, o ∈ orders → pickup_valid state o w = false ∧ delivery_valid state o = false.
Proof.
  split.
  - intros Hnil o Ho.
    destruct (pickup_valid state o w) eqn:Hp.
    { exfalso. by apply (candidates_nonempty state w orders o Ho); [left |]. }
    destruct (delivery_valid state o) eqn:Hd; [| done].
    exfalso. by apply (candidates_nonempty state w orders o Ho); [right |].
  - intros Hall. destruct (candidates state w orders) as [| c cs] eqn:E; [done |].
    assert (Hc : c ∈ candidates state w orders) by (rewrite E; left).
    apply elem_of_candidates in Hc as (o & Ho & Hc).
    apply elem_of_candidates_of in Hc as (_ & _ & [[Hp _] | [Hd _]]);
      destruct (Hall o Ho); congruence.
Qed.

Lemma search_none_iff state w orders :
  (fold_left (visit_pure state w) orders no_candidate).1.1 = None ↔
  candidates state w orders = [].
Proof.
  pose proof (search_result state w orders) as H.
  destruct (candidates state w orders) as [| c cs].
  - by rewrite H.
  - destruct H as (c' & _ & ->). done.
Qed.

(** 
   X5: the search sets its three results together.  Either it returns
   (None, None, +infinity), or it returns the restaurant of a listed order
   that passes the pickup guard, or the customer of a listed order that
   passes the delivery guard, with that order's identifier and with the
   arrival time state.time + travel_time(state.location, stop), which is
   not before state.time.
*)
Theorem find_nearest_valid_location_result state orders waiting_required :
  (find_nearest_valid_location orders waiting_required state).1 = (None, None, Infinity)
  ∨
  ∃ o loc,
    o ∈ orders ∧
    (find_nearest_valid_location orders waiting_required state).1
    = (Some loc, Some (id o), Finite (arrival_at state loc)) ∧
    ((loc = location (restaurant o) ∧ pickup_valid state o waiting_required = true) ∨
     (loc = customer o ∧ delivery_valid state o = true)) ∧
    state_time state <= arrival_at state loc.
Proof.
  rewrite find_nearest_run. cbn [fst].
  pose proof (search_result state waiting_required orders) as H.
  destruct (candidates state waiting_required orders) as [| c0 cs] eqn:E; [by left |].
  right. destruct H as (c & Hc & ->). rewrite <- E in Hc.
  apply elem_of_candidates in Hc as (o & Ho & Hc).
  apply elem_of_candidates_of in Hc as (Hid & Harr & Hkind).
  exists o, c.1.1. rewrite Hid, Harr. split; [done |]. split; [done |].
  split; [| apply arrival_at_ge].
  destruct Hkind as [[Hp Hl] | [Hd Hl]]; auto.
Qed.

(** 
   X6: the search returns no location exactly when no listed order passes
   the pickup guard or the delivery guard; with waiting_required false that
   is exactly when the identifier of every listed order is in both the
   picked-up set and the delivered set.
*)
Theorem find_nearest_valid_location_none_iff state orders :
  (∀ waiting_required,
     (find_nearest_valid_location orders waiting_required state).1.1.1 = None ↔
     ∀ o, o ∈ orders →
       pickup_valid state o waiting_required = false ∧ delivery_valid state o = false)
  ∧
  ((find_nearest_valid_location orders false state).1.1.1 = None ↔
   ∀ o, o ∈ orders →
     id o ∈ picked_up_orders state ∧ id o ∈ delivered_orders state).
Proof.
  assert (Hgen : ∀ w,
     (find_nearest_valid_location orders w state).1.1.1 = None ↔
     ∀ o, o ∈ orders → pickup_valid state o w = false ∧ delivery_valid state o = false).
  { intros w. rewrite find_nearest_run. cbn [fst].
    rewrite search_none_iff. apply candidates_nil_iff. }
  split; [exact Hgen |]. rewrite Hgen.
  split; intros Hall o Ho; specialize (Hall o Ho).
  - destruct Hall as [Hp Hd]. unfold pickup_valid, delivery_valid in *.
    cbn [negb orb] in Hp. rewrite andb_true_r in Hp.
    apply bool_decide_eq_false in Hp. apply dec_stable in Hp.
    rewrite (bool_decide_eq_true_2 _ Hp) in Hd. cbn [andb] in Hd.
    apply bool_decide_eq_false in Hd. apply dec_stable in Hd. done.
  - destruct Hall as [Hp Hd]. unfold pickup_valid, delivery_valid.
    rewrite (bool_decide_eq_false_2 (id o ∉ picked_up_orders state)) by (intros H; by apply H).
    rewrite (bool_decide_eq_false_2 (id o ∉ delivered_orders state)) by (intros H; by apply H).
    by rewrite andb_false_r.
Qed.

Lemma pickup_valid_relaxed state o :
  pickup_valid state o true = true → pickup_valid state o false = true.
Proof.
  unfold pickup_valid. intros [Hp _]%andb_true_iff. by rewrite Hp.
Qed.

(** 
   X7: the second search of the loop body, with waiting_required true,
   never finds a stop the first one missed: what the loop body selects is
   always the result of the first search.
*)
Theorem select_stop_is_first_search orders state :
  (select_stop orders state).1 = (find_nearest_valid_location orders false state).1.
Proof.
  rewrite select_stop_run, find_nearest_run. cbn [fst]. unfold selected.
  destruct (fold_left (visit_pure state false) orders no_candidate).1.1 eqn:E; [done |].
  apply search_none_iff in E as Hnil.
  pose proof (search_result state false orders) as Hfirst. rewrite Hnil in Hfirst.
  rewrite Hfirst.
  assert (Hnil' : candidates state true orders = []).
  { apply candidates_nil_iff. intros o Ho.
    destruct (proj1 (candidates_nil_iff state false orders) Hnil o Ho) as [Hp Hd].
    split; [| done].
    destruct (pickup_valid state o true) eqn:Hp'; [| done].
    apply pickup_valid_relaxed in Hp'. congruence. }
  pose proof (search_result state true orders) as Hsecond. by rewrite Hnil' in Hsecond.
Qed.

(** 
   X8: the order of the list decides which stop wins a tie and nothing
   else; the arrival time the search returns is the same for every
   rearrangement of the order list.
*)
Theorem find_nearest_valid_location_arrival_permutation state orders orders'
    waiting_required :
  orders ≡ₚ orders' →
  (find_nearest_valid_location orders waiting_required state).1.2
  = (find_nearest_valid_location orders' waiting_required state).1.2.
Proof.
  intros Hperm. rewrite !find_nearest_run. cbn [fst].
  rewrite !fold_visit_candidates.
  assert (Hmem : ∀ c, c ∈ candidates state waiting_required orders ↔
                      c ∈ candidates state waiting_required orders').
  { intros c. rewrite !elem_of_candidates.
    split; intros (o & Ho & Hc); exists o; split; try done.
    - by rewrite <- Hperm.
    - by rewrite Hperm. }
  pose proof (fold_improve_spec (candidates state waiting_required orders)) as H1.
  pose proof (fold_improve_spec (candidates state waiting_required orders')) as H2.
  destruct (candidates state waiting_required orders) as [| c1 cs1] eqn:E1;
    destruct (candidates state waiting_required orders') as [| c2 cs2] eqn:E2.
  - reflexivity.
  - exfalso. apply (elem_of_nil c2), Hmem. left.
  - exfalso. apply (elem_of_nil c1), Hmem. left.
  - destruct H1 as (i1 & l1 & o1 & t1 & Hi1 & -> & Hmin1 & _).
    destruct H2 as (i2 & l2 & o2 & t2 & Hi2 & -> & Hmin2 & _).
    cbn [snd]. f_equal.
    assert (Hin1 : (l1, o1, t1) ∈ c2 :: cs2).
    { apply Hmem, list_elem_of_lookup. eauto. }
    assert (Hin2 : (l2, o2, t2) ∈ c1 :: cs1).
    { apply Hmem, list_elem_of_lookup. eauto. }
    apply list_elem_of_lookup in Hin1 as [j1 Hj1].
    apply list_elem_of_lookup in Hin2 as [j2 Hj2].
    specialize (Hmin1 _ _ Hj2). specialize (Hmin2 _ _ Hj1). simpl in *. lra.
Qed.

Lemma find_nearest_valid_location_arrival_permutation_witness :
  [order1; order2] ≡ₚ [order2; order1] ∧
  (find_nearest_valid_location [order1; order2] false (new_state driver 0)).1.2
  = (find_nearest_valid_location [order2; order1] false (new_state driver 0)).1.2.
Proof.
  assert (Hp : [order1; order2] ≡ₚ [order2; order1]) by apply perm_swap.
  split; [exact Hp |].
  apply (find_nearest_valid_location_arrival_permutation _ _ _ _ Hp).
Defined.

End SearchMore.

(** ** Route builder *)

Section BuilderMore.
Local Open Scope R_scope.

Lemma iteration_pass orders route timeline state route' timeline' state' :
  iteration orders route timeline state = (Continue route' timeline', state') →
  pass orders route timeline state route' timeline' state'.
Proof.
  intros Hit.
  destruct (iteration_cases orders route timeline state)
    as [[Hno Hsame] | (w & o & m & loc & Ho & Hm & _ & Hmin & Hkind & Hres)].
  { rewrite Hsame in Hit. inversion Hit; subst. by constructor. }
  rewrite Hres in Hit. unfold stop_result in Hit.
  case_bool_decide as Hloc.
  - unfold py_max in Hit.
    destruct (decide (arrival_at state loc < prep_time (restaurant m))) as [Hlt | Hge].
    + rewrite (bool_decide_eq_true_2 _ Hlt) in Hit.
      rewrite (bool_decide_eq_true_2 _ Hlt) in Hit.
      inversion Hit; subst route' timeline' state'.
      rewrite <- app_assoc. by eapply pass_wait.
    + rewrite (bool_decide_eq_false_2 _ Hge) in Hit.
      rewrite bool_decide_eq_false_2 in Hit by lra.
      inversion Hit; subst route' timeline' state'.
      eapply pass_pickup; eauto. lra.
  - inversion Hit; subst route' timeline' state'.
    by eapply pass_delivery.
Qed.

Lemma reachable_pass_ind driver_location orders
    (P : list Location → list Event → DeliveryState → Prop) :
  P [] [] (new_state driver_location 0) →
  (∀ route timeline state route' timeline' state',
     reachable driver_location orders route timeline state →
     P route timeline state →
     pass orders route timeline state route' timeline' state' →
     P route' timeline' state') →
  ∀ route timeline state,
    reachable driver_location orders route timeline state → P route timeline state.
Proof.
  intros Hstart Hstep route timeline state Hr.
  induction Hr as [| ? ? ? ? ? ? Hr IH _ Hit]; [done |].
  eapply Hstep; eauto. by apply iteration_pass.
Qed.

Lemma returned_reachable driver_location orders fuel route total timeline :
  optimize_route driver_location fuel orders = Returned route total timeline →
  ∃ state, reachable driver_location orders route timeline state ∧
           loop_guard orders state = false ∧ total = state_time state.
Proof.
  intros Hrun. eapply run_loop_reachable; [apply reach_start | exact Hrun].
Qed.

(** The run of the sample order "1". *)
Lemma order1_run :
  ∃ route total timeline,
    optimize_route driver 2 [order1] = Returned route total timeline.
Proof. eexists _, _, _. apply optimize_route_single. discriminate. Qed.

End BuilderMore.

(** *** The timeline is chronological *)

Section TimelineOrder.
Local Open Scope R_scope.

Lemma timeline_continuity_app last_time timeline events :
  timeline_continuity last_time (timeline ++ events) =
  timeline_continuity last_time timeline &&
  timeline_continuity (final_time last_time timeline) events.
Proof.
  revert last_time. induction timeline as [| e rest IH]; intros last_time; [done |].
  destruct e; simpl; rewrite IH; by rewrite !andb_assoc.
Qed.

Lemma final_time_app last_time timeline events :
  final_time last_time (timeline ++ events) =
  final_time (final_time last_time timeline) events.
Proof.
  revert last_time. induction timeline as [| e rest IH]; intros last_time; [done |].
  simpl. apply IH.
Qed.

Lemma timeline_continuity_bounds last_time timeline :
  timeline_continuity last_time timeline = true →
  last_time <= final_time last_time timeline ∧
  ∀ e, e ∈ timeline →
    last_time <= event_time e ∧ event_time e <= final_time last_time timeline.
Proof.
  revert last_time. induction timeline as [| e rest IH]; intros last_time Hc.
  - simpl. split; [lra |]. intros e He. by apply elem_of_nil in He.
  - assert (Hhead : last_time <= event_time e ∧
                    timeline_continuity (event_time e) rest = true).
    { destruct e; simpl in *;
        repeat (apply andb_true_iff in Hc as [Hc ?]);
        repeat match goal with
               | H : bool_decide _ = true |- _ => apply bool_decide_eq_true in H
               end; split; try done; lra. }
    destruct Hhead as [Hle Hrest]. destruct (IH _ Hrest) as [Hfin Hall].
    simpl. split; [lra |].
    intros e' [-> | He']%elem_of_cons; [lra |].
    destruct (Hall _ He'). lra.
Qed.

Lemma timeline_continuity_no_overlap last_time timeline :
  timeline_continuity last_time timeline = true →
  no_overlap (waiting_periods timeline) = true ∧
  ∀ p, p ∈ waiting_periods timeline → last_time <= p.1.
Proof.
  revert last_time. induction timeline as [| e rest IH]; intros last_time Hc.
  - simpl. split; [done |]. intros p Hp. by apply elem_of_nil in Hp.
  - destruct e as [n o s e | n o t | n o t]; simpl in Hc.
    + apply andb_true_iff in Hc as [Hc Hrest].
      apply andb_true_iff in Hc as [Hs He].
      apply bool_decide_eq_true in Hs, He.
      destruct (IH _ Hrest) as [Hno Hall]. split.
      * cbn [waiting_periods no_overlap].
        destruct (waiting_periods rest) as [| q qs] eqn:Eq; [done |].
        rewrite Hno, andb_true_r. apply negb_true_iff, bool_decide_eq_false.
        specialize (Hall q (list_elem_of_here _ _)). simpl. lra.
      * cbn [waiting_periods]. intros p [-> | Hp]%elem_of_cons; [done |].
        specialize (Hall p Hp). lra.
    + apply andb_true_iff in Hc as [Ht Hrest]. apply bool_decide_eq_true in Ht.
      destruct (IH _ Hrest) as [Hno Hall]. split; [done |].
      cbn [waiting_periods]. intros p Hp. specialize (Hall p Hp). lra.
    + apply andb_true_iff in Hc as [Ht Hrest]. apply bool_decide_eq_true in Ht.
      destruct (IH _ Hrest) as [Hno Hall]. split; [done |].
      cbn [waiting_periods]. intros p Hp. specialize (Hall p Hp). lra.
Qed.

(** The loop keeps the timeline passing the continuity checks, the clock
    being the time of its last event. *)
Lemma reachable_chronological driver_location orders route timeline state :
  reachable driver_location orders route timeline state →
  timeline_continuity 0 timeline = true ∧ final_time 0 timeline = state_time state.
Proof.
  apply (reachable_pass_ind driver_location orders
           (λ _ timeline state,
              timeline_continuity 0 timeline = true ∧
              final_time 0 timeline = state_time state)); [done |].
  clear. intros route timeline state route' timeline' state' _ [Hc Hf] Hpass.
  destruct Hpass as [| o m loc w _ _ _ _ _ Hlt | o m loc w _ _ _ _ _ Hge | o m loc w _ _ _ _ _];
    [done | ..];
    pose proof (arrival_at_ge state loc) as Harr;
    rewrite timeline_continuity_app, final_time_app, Hc, Hf; simpl;
    repeat rewrite bool_decide_eq_true_2 by lra; done.
Qed.

(** 
   X9: the timeline of every run that returns passes the checks of
   test_timeline_continuity: starting from 0, every waiting event starts at
   or after the previous event and ends after its own start, and every
   pickup or delivery is at or after the previous event.
*)
Theorem returned_timeline_continuity driver_location fuel orders route total timeline :
  optimize_route driver_location fuel orders = Returned route total timeline →
  timeline_continuity 0 timeline = true.
Proof.
  intros Hrun. destruct (returned_reachable _ _ _ _ _ _ Hrun) as (state & Hr & _ & _).
  by destruct (reachable_chronological _ _ _ _ _ Hr).
Qed.

Lemma returned_timeline_continuity_witness :
  ∃ route total timeline,
    optimize_route driver 2 [order1] = Returned route total timeline ∧
    timeline_continuity 0 timeline = true.
Proof.
  destruct order1_run as (route & total & timeline & Hrun).
  exists route, total, timeline. split; [exact Hrun |].
  exact (returned_timeline_continuity _ _ _ _ _ _ Hrun).
Defined.

(** 
   X10: the waiting periods of every run that returns pass the check of
   analyze_concurrent_efficiency: no waiting period ends after the next one
   starts.
*)
Theorem returned_waiting_periods_disjoint driver_location fuel orders route total timeline :
  optimize_route driver_location fuel orders = Returned route total timeline →
  no_overlap (waiting_periods timeline) = true.
Proof.
  intros Hrun. destruct (returned_reachable _ _ _ _ _ _ Hrun) as (state & Hr & _ & _).
  destruct (reachable_chronological _ _ _ _ _ Hr) as [Hc _].
  by destruct (timeline_continuity_no_overlap _ _ Hc).
Qed.

Lemma returned_waiting_periods_disjoint_witness :
  ∃ route total timeline,
    optimize_route driver 2 [order1] = Returned route total timeline ∧
    no_overlap (waiting_periods timeline) = true.
Proof.
  destruct order1_run as (route & total & timeline & Hrun).
  exists route, total, timeline. split; [exact Hrun |].
  exact (returned_waiting_periods_disjoint _ _ _ _ _ _ Hrun).
Defined.

(** 
   X11: the total time a run returns is the time of the last event of its
   timeline (0 when the timeline is empty); it is not negative and no event
   of the timeline is later.
*)
Theorem returned_total_time driver_location fuel orders route total timeline :
  optimize_route driver_location fuel orders = Returned route total timeline →
  total = final_time 0 timeline ∧ 0 <= total ∧
  ∀ e, e ∈ timeline → 0 <= event_time e <= total.
Proof.
  intros Hrun.
  destruct (returned_reachable _ _ _ _ _ _ Hrun) as (state & Hr & _ & ->).
  destruct (reachable_chronological _ _ _ _ _ Hr) as [Hc Hf].
  destruct (timeline_continuity_bounds _ _ Hc) as [H0 Hall].
  rewrite Hf in H0, Hall. by rewrite Hf.
Qed.

Lemma returned_total_time_witness :
  ∃ route total timeline,
    optimize_route driver 2 [order1] = Returned route total timeline ∧
    total = final_time 0 timeline.
Proof.
  destruct order1_run as (route & total & timeline & Hrun).
  exists route, total, timeline. split; [exact Hrun |].
  exact (proj1 (returned_total_time _ _ _ _ _ _ Hrun)).
Defined.

End TimelineOrder.

(** *** In exact arithmetic no pass raises *)

Lemma run_loop_never_raises fuel orders route timeline state :
  (∃ route' total timeline',
     run_loop fuel orders route timeline state = Returned route' total timeline')
  ∨ run_loop fuel orders route timeline state = OutOfFuel.
Proof.
  revert route timeline state.
  induction fuel as [| fuel IH]; intros route timeline state; rewrite run_loop_unfold;
    destruct (loop_guard orders state); eauto.
  destruct (iteration_continues orders route timeline state)
    as (route' & timeline' & state' & ->).
  apply IH.
Qed.

(** *** What the events say *)

Section Events.
Local Open Scope R_scope.

Lemma matching_some orders oid m :
  matching orders oid = Some m → m ∈ orders ∧ id m = oid.
Proof.
  unfold matching. intros H. apply find_some in H as [Hin Hid].
  apply list_elem_of_In in Hin. by apply bool_decide_eq_true in Hid.
Qed.

Lemma reachable_events_sound driver_location orders route timeline state :
  reachable driver_location orders route timeline state →
  ∀ e, e ∈ timeline → event_sound orders e.
Proof.
  apply (reachable_pass_ind driver_location orders
           (λ _ timeline _, ∀ e, e ∈ timeline → event_sound orders e)).
  { intros e He. by apply elem_of_nil in He. }
  clear. intros route timeline state route' timeline' state' _ IH Hpass.
  destruct Hpass as [| o m loc w Ho Hm Hmin Hkind Hloc Hlt
                     | o m loc w Ho Hm Hmin Hkind Hloc Hge
                     | o m loc w Ho Hm Hmin Hkind Hloc]; [done | ..];
    destruct (matching_some _ _ _ Hm) as [_ Hid];
    intros e [He | He]%elem_of_app; try (by apply IH).
  - apply elem_of_cons in He as [-> | He];
      [| apply list_elem_of_singleton in He as ->]; simpl.
    + exists m. subst loc. repeat split; done || lra.
    + exists m. subst loc. repeat split; done || lra.
  - apply list_elem_of_singleton in He as ->. simpl.
    exists m. subst loc. repeat split; done || lra.
  - apply list_elem_of_singleton in He as ->. simpl.
    exists o. repeat split; [done |].
    destruct Hkind as [[_ ->] | [_ ->]]; auto.
Qed.

(** 
   X13: in the timeline of every run that returns, a pickup event carries
   the name of the restaurant of the matching order (the first listed order
   with the event's identifier) and a time not before that restaurant's
   preparation time; a waiting event carries the same name, ends exactly at
   the preparation time and starts strictly before it.
*)
Theorem returned_pickups_after_preparation driver_location fuel orders route total timeline :
  optimize_route driver_location fuel orders = Returned route total timeline →
  (∀ n oid time,
     Pickup n oid time ∈ timeline →
     ∃ m, matching orders oid = Some m ∧ m ∈ orders ∧ id m = oid ∧
          n = name (location (restaurant m)) ∧ prep_time (restaurant m) <= time)
  ∧
  (∀ n oid start_time end_time,
     Waiting n oid start_time end_time ∈ timeline →
     ∃ m, matching orders oid = Some m ∧ m ∈ orders ∧ id m = oid ∧
          n = name (location (restaurant m)) ∧
          end_time = prep_time (restaurant m) ∧ start_time < end_time).
Proof.
  intros Hrun. destruct (returned_reachable _ _ _ _ _ _ Hrun) as (state & Hr & _ & _).
  pose proof (reachable_events_sound _ _ _ _ _ Hr) as Hs.
  split; intros; by apply (Hs _ H).
Qed.

Lemma returned_pickups_after_preparation_witness :
  ∃ route total timeline,
    optimize_route driver 2 [order1] = Returned route total timeline ∧
    ∀ n oid time,
      Pickup n oid time ∈ timeline →
      ∃ m, matching [order1] oid = Some m ∧ m ∈ [order1] ∧ id m = oid ∧
           n = name (location (restaurant m)) ∧ prep_time (restaurant m) <= time.
Proof.
  destruct order1_run as (route & total & timeline & Hrun).
  exists route, total, timeline. split; [exact Hrun |].
  exact (proj1 (returned_pickups_after_preparation _ _ _ _ _ _ Hrun)).
Defined.

Lemma reachable_wait_then_pickup driver_location orders route timeline state :
  reachable driver_location orders route timeline state →
  ∀ i n oid start_time end_time,
    timeline !! i = Some (Waiting n oid start_time end_time) →
    timeline !! S i = Some (Pickup n oid end_time).
Proof.
  apply (reachable_pass_ind driver_location orders
           (λ _ timeline _,
              ∀ i n oid start_time end_time,
                timeline !! i = Some (Waiting n oid start_time end_time) →
                timeline !! S i = Some (Pickup n oid end_time))).
  { intros i ? ? ? ? Hi. by rewrite lookup_nil in Hi. }
  clear. intros route timeline state route' timeline' state' _ IH Hpass.
  assert (Hold : ∀ events i n oid s e,
            (∀ j, j < length events →
                  events !! j = Some (Waiting n oid s e) →
                  events !! S j = Some (Pickup n oid e))%nat →
            (timeline ++ events) !! i = Some (Waiting n oid s e) →
            (timeline ++ events) !! S i = Some (Pickup n oid e)).
  { intros events i n oid s e Hev Hi.
    destruct (decide (i < length timeline)%nat) as [Hlt | Hge].
    - rewrite lookup_app_l in Hi by done. apply IH in Hi.
      apply lookup_lt_Some in Hi as Hlen. by rewrite lookup_app_l.
    - rewrite lookup_app_r in Hi by lia.
      apply lookup_lt_Some in Hi as Hlen.
      rewrite lookup_app_r by lia.
      replace (S i - length timeline)%nat with (S (i - length timeline)) by lia.
      by apply Hev. }
  destruct Hpass as [| o m loc w _ _ _ _ _ _ | o m loc w _ _ _ _ _ _ | o m loc w _ _ _ _ _];
    [done | ..]; intros i n oid s e Hi; apply (Hold _ _ _ _ _ _) in Hi; try done.
  - intros [| [| j]] Hj Hw; simpl in *; [by inversion Hw | done | lia].
  - intros [| j] Hj Hw; simpl in *; [done | lia].
  - intros [| j] Hj Hw; simpl in *; [done | lia].
Qed.

(** 
   X14: in the timeline of every run that returns, a waiting event is
   directly followed by the pickup event of the same order at the same
   location, at the time the waiting ends.
*)
Theorem returned_wait_then_pickup driver_location fuel orders route total timeline :
  optimize_route driver_location fuel orders = Returned route total timeline →
  ∀ i n oid start_time end_time,
    timeline !! i = Some (Waiting n oid start_time end_time) →
    timeline !! S i = Some (Pickup n oid end_time).
Proof.
  intros Hrun. destruct (returned_reachable _ _ _ _ _ _ Hrun) as (state & Hr & _ & _).
  by apply (reachable_wait_then_pickup _ _ _ _ _ Hr).
Qed.

Lemma returned_wait_then_pickup_witness :
  ∃ route total timeline,
    optimize_route driver 2 [order1] = Returned route total timeline ∧
    ∀ i n oid start_time end_time,
      timeline !! i = Some (Waiting n oid start_time end_time) →
      timeline !! S i = Some (Pickup n oid end_time).
Proof.
  destruct order1_run as (route & total & timeline & Hrun).
  exists route, total, timeline. split; [exact Hrun |].
  exact (returned_wait_then_pickup _ _ _ _ _ _ Hrun).
Defined.

End Events.

(** *** The route and the sets *)

Lemma stop_names_app timeline events :
  stop_names (timeline ++ events) = stop_names timeline ++ stop_names events.
Proof.
  induction timeline as [| e rest IH]; [done |].
  destruct e; simpl; by rewrite IH.
Qed.

Lemma pass_order_location (orders : list Order) state o loc w :
  o ∈ orders →
  (pickup_valid state o w = true ∧ loc = location (restaurant o)) ∨
  (delivery_valid state o = true ∧ loc = customer o) →
  order_location orders loc.
Proof. intros Ho [[_ ->] | [_ ->]]; exists o; auto. Qed.

Lemma reachable_route driver_location orders route timeline state :
  reachable driver_location orders route timeline state →
  map name route = stop_names timeline ∧
  (∀ loc, loc ∈ route → order_location orders loc) ∧
  state_location state = List.last route driver_location.
Proof.
  apply (reachable_pass_ind driver_location orders
           (λ route timeline state,
              map name route = stop_names timeline ∧
              (∀ loc, loc ∈ route → order_location orders loc) ∧
              state_location state = List.last route driver_location)).
  { repeat split. intros loc Hin. by apply elem_of_nil in Hin. }
  clear. intros route timeline state route' timeline' state' _ (Hn & Hl & Hs) Hpass.
  destruct Hpass as [| o m loc w Ho _ _ Hkind _ _ | o m loc w Ho _ _ Hkind _ _
                     | o m loc w Ho _ _ Hkind _]; [done | ..];
    (split; [| split]);
    try (rewrite map_app, stop_names_app, Hn; reflexivity);
    try (intros l [Hin | Hin]%elem_of_app; [by apply Hl |];
         apply list_elem_of_singleton in Hin as ->;
         by eapply (pass_order_location orders state));
    by rewrite last_last.
Qed.

(** 
   X15: the route of every run that returns lists, in order, the locations
   of the pickup and delivery events of its timeline (one route entry for
   each such event, none for a waiting event), and every entry is the
   restaurant location or the customer of a listed order.
*)
Theorem returned_route_follows_timeline driver_location fuel orders route total timeline :
  optimize_route driver_location fuel orders = Returned route total timeline →
  map name route = stop_names timeline ∧
  length route = length (stop_names timeline) ∧
  ∀ loc, loc ∈ route →
    ∃ o, o ∈ orders ∧ (loc = location (restaurant o) ∨ loc = customer o).
Proof.
  intros Hrun. destruct (returned_reachable _ _ _ _ _ _ Hrun) as (state & Hr & _ & _).
  destruct (reachable_route _ _ _ _ _ Hr) as (Hn & Hl & _).
  split; [done |]. split; [| exact Hl].
  by rewrite <- Hn, length_map.
Qed.

Lemma returned_route_follows_timeline_witness :
  ∃ route total timeline,
    optimize_route driver 2 [order1] = Returned route total timeline ∧
    map name route = stop_names timeline.
Proof.
  destruct order1_run as (route & total & timeline & Hrun).
  exists route, total, timeline. split; [exact Hrun |].
  exact (proj1 (returned_route_follows_timeline _ _ _ _ _ _ Hrun)).
Defined.

Lemma reachable_sets driver_location orders route timeline state :
  reachable driver_location orders route timeline state →
  picked_up_orders state ⊆ order_ids orders ∧
  delivered_orders state ⊆ order_ids orders ∧
  (∀ oid, oid ∈ picked_up_orders state ↔ ∃ n t, Pickup n oid t ∈ timeline) ∧
  (∀ oid, oid ∈ delivered_orders state ↔ ∃ n t, Delivery n oid t ∈ timeline).
Proof.
  apply (reachable_pass_ind driver_location orders
           (λ _ timeline state,
              picked_up_orders state ⊆ order_ids orders ∧
              delivered_orders state ⊆ order_ids orders ∧
              (∀ oid, oid ∈ picked_up_orders state ↔ ∃ n t, Pickup n oid t ∈ timeline) ∧
              (∀ oid, oid ∈ delivered_orders state ↔ ∃ n t, Delivery n oid t ∈ timeline))).
  { cbn [new_state picked_up_orders delivered_orders]. repeat split; try done;
      first [ intros H; by apply not_elem_of_empty in H
            | intros (n & t & H); by apply elem_of_nil in H ]. }
  clear. intros route timeline state route' timeline' state' _ (Hp & Hd & Hpe & Hde) Hpass.
  assert (Hadd : ∀ (X : gset string) o, o ∈ orders → X ⊆ order_ids orders →
                   {[id o]} ∪ X ⊆ order_ids orders).
  { intros X o Ho HX x [Hx | Hx]%elem_of_union; [| by apply HX].
    apply elem_of_singleton in Hx as ->. apply elem_of_order_ids. eauto. }
  destruct Hpass as [| o m loc w Ho _ _ _ _ _ | o m loc w Ho _ _ _ _ _
                     | o m loc w Ho _ _ _ _]; [done | ..];
    cbn [picked_up_orders delivered_orders];
    (split; [by auto | split; [by auto |]]); split; intros oid.
  - rewrite elem_of_union, elem_of_singleton, Hpe. split.
    + intros [-> | (n & t & H)].
      * eexists _, _. apply elem_of_app. right. right. left.
      * exists n, t. apply elem_of_app. by left.
    + intros (n & t & [H | H]%elem_of_app); [right; eauto |].
      apply elem_of_cons in H as [H | H]; [done |].
      apply list_elem_of_singleton in H. inversion H. by left.
  - rewrite Hde. split; intros (n & t & H).
    + exists n, t. apply elem_of_app. by left.
    + apply elem_of_app in H as [H | H]; [eauto |].
      apply elem_of_cons in H as [H | H]; [done |].
      by apply list_elem_of_singleton in H.
  - rewrite elem_of_union, elem_of_singleton, Hpe. split.
    + intros [-> | (n & t & H)].
      * eexists _, _. apply elem_of_app. right. left.
      * exists n, t. apply elem_of_app. by left.
    + intros (n & t & [H | H]%elem_of_app); [right; eauto |].
      apply list_elem_of_singleton in H. inversion H. by left.
  - rewrite Hde. split; intros (n & t & H).
    + exists n, t. apply elem_of_app. by left.
    + apply elem_of_app in H as [H | H]; [eauto |].
      by apply list_elem_of_singleton in H.
  - rewrite Hpe. split; intros (n & t & H).
    + exists n, t. apply elem_of_app. by left.
    + apply elem_of_app in H as [H | H]; [eauto |].
      by apply list_elem_of_singleton in H.
  - rewrite elem_of_union, elem_of_singleton, Hde. split.
    + intros [-> | (n & t & H)].
      * eexists _, _. apply elem_of_app. right. left.
      * exists n, t. apply elem_of_app. by left.
    + intros (n & t & [H | H]%elem_of_app); [right; eauto |].
      apply list_elem_of_singleton in H. inversion H. by left.
Qed.

Lemma order1_first_pass :
  ∃ route timeline state,
    reachable driver [order1] route timeline state ∧ "1" ∈ picked_up_orders state.
Proof.
  eexists _, _, _. split.
  - eapply reach_step; [apply reach_start | apply guard_fresh | apply iteration_fresh].
  - cbn [picked_up_orders state_after_pickup].
    apply elem_of_union. left. by apply elem_of_singleton.
Qed.

(** 
   X16: throughout every run the two sets of the state hold identifiers of
   listed orders only; an identifier is in the picked-up set exactly when
   the timeline has a pickup event for it, and in the delivered set exactly
   when the timeline has a delivery event for it.
*)
Theorem state_sets_follow_timeline driver_location orders route timeline state :
  reachable driver_location orders route timeline state →
  (∀ oid, oid ∈ picked_up_orders state → ∃ o, o ∈ orders ∧ id o = oid) ∧
  (∀ oid, oid ∈ delivered_orders state → ∃ o, o ∈ orders ∧ id o = oid) ∧
  (∀ oid, oid ∈ picked_up_orders state ↔ ∃ n t, Pickup n oid t ∈ timeline) ∧
  (∀ oid, oid ∈ delivered_orders state ↔ ∃ n t, Delivery n oid t ∈ timeline).
Proof.
  intros Hr. destruct (reachable_sets _ _ _ _ _ Hr) as (Hp & Hd & Hpe & Hde).
  repeat split; try (by apply Hpe); try (by apply Hde).
  - intros oid H. by apply elem_of_order_ids, Hp.
  - intros oid H. by apply elem_of_order_ids, Hd.
Qed.

Lemma state_sets_follow_timeline_witness :
  ∃ route timeline state,
    reachable driver [order1] route timeline state ∧
    "1" ∈ picked_up_orders state ∧
    ∃ n t, Pickup n "1" t ∈ timeline.
Proof.
  destruct order1_first_pass as (route & timeline & state & Hr & Hin).
  exists route, timeline, state. split; [exact Hr |]. split; [exact Hin |].
  apply (state_sets_follow_timeline _ _ _ _ _ Hr), Hin.
Defined.

(** *** When the loop ends *)

Lemma run_loop_guarded driver_location orders :
  (∀ route timeline state,
     reachable driver_location orders route timeline state →
     loop_guard orders state = true) →
  ∀ fuel, optimize_route driver_location fuel orders = OutOfFuel.
Proof.
  intros Hguard fuel. unfold optimize_route.
  assert (Hgen : ∀ route timeline state,
            reachable driver_location orders route timeline state →
            run_loop fuel orders route timeline state = OutOfFuel);
    [| apply Hgen, reach_start].
  induction fuel as [| fuel IH]; intros route timeline state Hr;
    rewrite run_loop_unfold, (Hguard _ _ _ Hr); [done |].
  destruct (iteration_continues orders route timeline state)
    as (route' & timeline' & state' & Hit).
  rewrite Hit. apply IH. eapply reach_step; eauto.
Qed.

Lemma size_list_to_set_le (l : list string) :
  size (list_to_set l : gset string) ≤ length l.
Proof.
  induction l as [| x l IH].
  - rewrite list_to_set_nil, size_empty. done.
  - rewrite list_to_set_cons. cbn [length].
    destruct (decide (x ∈ (list_to_set l : gset string))) as [Hin | Hnin].
    + assert (({[x]} ∪ list_to_set l : gset string) = list_to_set l) as ->; [| lia].
      apply set_eq. intros y. rewrite elem_of_union, elem_of_singleton.
      split; [intros [-> | ?]; done | by right].
    + rewrite size_add by done. lia.
Qed.

Lemma size_list_to_set_dup (l : list string) :
  ¬ NoDup l → size (list_to_set l : gset string) < length l.
Proof.
  induction l as [| x l IH]; intros Hdup.
  - exfalso. apply Hdup. constructor.
  - rewrite list_to_set_cons. cbn [length].
    destruct (decide (x ∈ l)) as [Hin | Hnin].
    + assert (({[x]} ∪ list_to_set l : gset string) = list_to_set l) as ->.
      { apply set_eq. intros y. rewrite elem_of_union, elem_of_singleton.
        split; [intros [-> | ?]; [by apply elem_of_list_to_set | done] | by right]. }
      pose proof (size_list_to_set_le l). lia.
    + assert (Hl : ¬ NoDup l).
      { intros Hl. apply Hdup. by apply NoDup_cons. }
      rewrite size_add by (by rewrite elem_of_list_to_set).
      specialize (IH Hl). lia.
Qed.

(** Two listed orders share an identifier: the delivered set can never
    reach the length of the list, and the loop never ends. *)
Lemma optimize_route_duplicate_ids driver_location orders fuel :
  ¬ NoDup (map id orders) →
  optimize_route driver_location fuel orders = OutOfFuel.
Proof.
  intros Hdup. apply run_loop_guarded. intros route timeline state Hr.
  apply bool_decide_eq_true.
  destruct (reachable_sets _ _ _ _ _ Hr) as (_ & Hd & _ & _).
  apply subseteq_size in Hd.
  pose proof (size_list_to_set_dup _ Hdup) as Hlt.
  rewrite length_map in Hlt. unfold order_ids in Hd. lia.
Qed.

Lemma NoDup_id_inj orders o o' :
  NoDup (map id orders) → o ∈ orders → o' ∈ orders → id o = id o' → o = o'.
Proof.
  intros Hnd Ho Ho' Hid.
  pose proof (matching_NoDup _ _ Hnd Ho) as H1.
  pose proof (matching_NoDup _ _ Hnd Ho') as H2.
  rewrite Hid in H1. congruence.
Qed.

(** With distinct identifiers, an order whose customer is its restaurant's
    own [Location] is never delivered. *)
Lemma reachable_counter_undelivered driver_location orders o route timeline state :
  NoDup (map id orders) →
  o ∈ orders → customer o = location (restaurant o) →
  reachable driver_location orders route timeline state →
  id o ∉ delivered_orders state.
Proof.
  intros Hnd Ho Hsame.
  apply (reachable_pass_ind driver_location orders
           (λ _ _ state, id o ∉ delivered_orders state)).
  { apply not_elem_of_empty. }
  intros route0 timeline0 state0 route' timeline' state' _ IH Hpass.
  destruct Hpass as [| o' m loc w Ho' Hm _ Hkind Hloc _ | o' m loc w Ho' Hm _ Hkind Hloc _
                     | o' m loc w Ho' Hm _ Hkind Hloc]; try done.
  cbn [delivered_orders]. intros [Hin | Hin]%elem_of_union; [| done].
  apply elem_of_singleton in Hin.
  assert (o' = o) as -> by (by eapply NoDup_id_inj).
  rewrite (matching_NoDup _ _ Hnd Ho) in Hm. inversion Hm; subst m.
  apply Hloc. destruct Hkind as [[_ ->] | [_ ->]]; done.
Qed.

Lemma optimize_route_counter_customer driver_location orders o fuel :
  NoDup (map id orders) →
  o ∈ orders → customer o = location (restaurant o) →
  optimize_route driver_location fuel orders = OutOfFuel.
Proof.
  intros Hnd Ho Hsame. apply run_loop_guarded. intros route timeline state Hr.
  apply bool_decide_eq_true.
  destruct (reachable_sets _ _ _ _ _ Hr) as (_ & Hd & _ & _).
  pose proof (reachable_counter_undelivered _ _ _ _ _ _ Hnd Ho Hsame Hr) as Hnot.
  assert (Hstrict : delivered_orders state ⊂ order_ids orders).
  { split; [done |]. intros Hsub. apply Hnot, Hsub, elem_of_order_ids. eauto. }
  apply subset_size in Hstrict. rewrite (size_order_ids _ Hnd) in Hstrict. lia.
Qed.

Lemma returned_well_formed driver_location fuel orders route total timeline :
  optimize_route driver_location fuel orders = Returned route total timeline →
  NoDup (map id orders) ∧
  ∀ o, o ∈ orders → customer o ≠ location (restaurant o).
Proof.
  intros Hrun.
  destruct (decide (NoDup (map id orders))) as [Hnd | Hdup].
  - split; [done |]. intros o Ho Hsame.
    rewrite (optimize_route_counter_customer _ _ _ _ Hnd Ho Hsame) in Hrun. done.
  - rewrite (optimize_route_duplicate_ids _ _ _ Hdup) in Hrun. done.
Qed.

(** *** What a returned run holds *)

Section Returned.
Local Open Scope R_scope.

Lemma returned_all_delivered driver_location fuel orders route total timeline :
  optimize_route driver_location fuel orders = Returned route total timeline →
  ∃ state,
    reachable driver_location orders route timeline state ∧
    total = state_time state ∧
    picked_up_orders state = order_ids orders ∧
    delivered_orders state = order_ids orders.
Proof.
  intros Hrun.
  destruct (returned_well_formed _ _ _ _ _ _ Hrun) as [Hnd Hdoor].
  destruct (returned_reachable _ _ _ _ _ _ Hrun) as (state & Hr & Hg & Ht).
  exists state. split; [done |]. split; [done |].
  destruct (reachable_count_inv _ _ _ _ _ Hnd Hdoor Hr) as (Hpick & Hsub & _ & _).
  apply bool_decide_eq_false in Hg. rewrite <- (size_order_ids _ Hnd) in Hg.
  assert (Hd : delivered_orders state = order_ids orders).
  { apply set_subseteq_size_eq; [| lia]. intros x Hx. by apply Hpick, Hsub. }
  split; [| done].
  apply (anti_symm (⊆)); [done |]. by rewrite <- Hd.
Qed.

(** 
   X19: whenever optimize_route returns, the route has exactly two stops
   for each listed order and the timeline has exactly one pickup event and
   exactly one delivery event for the identifier of each listed order, and
   no pickup or delivery event for any other identifier.
*)
Theorem returned_one_pickup_one_delivery driver_location fuel orders route total timeline :
  optimize_route driver_location fuel orders = Returned route total timeline →
  length route = (2 * length orders)%nat ∧
  (∀ o, o ∈ orders →
     count_events (is_pickup_of (id o)) timeline = 1%nat ∧
     count_events (is_delivery_of (id o)) timeline = 1%nat) ∧
  (∀ oid, (∀ o, o ∈ orders → id o ≠ oid) →
     count_events (is_pickup_of oid) timeline = 0%nat ∧
     count_events (is_delivery_of oid) timeline = 0%nat).
Proof.
  intros Hrun.
  destruct (returned_well_formed _ _ _ _ _ _ Hrun) as [Hnd Hdoor].
  destruct (returned_all_delivered _ _ _ _ _ _ Hrun) as (state & Hr & _ & Hp & Hd).
  destruct (reachable_count_inv _ _ _ _ _ Hnd Hdoor Hr) as (_ & _ & Hlen & Hcount).
  rewrite Hp, Hd, (size_order_ids _ Hnd) in Hlen.
  split; [lia |]. split.
  - intros o Ho. destruct (Hcount (id o)) as [-> ->].
    assert (Hin : id o ∈ order_ids orders) by (apply elem_of_order_ids; eauto).
    rewrite !decide_True; [done | by rewrite Hd | by rewrite Hp].
  - intros oid Hnone. destruct (Hcount oid) as [-> ->].
    assert (Hnin : oid ∉ order_ids orders).
    { intros (o & Ho & Hid)%elem_of_order_ids. by apply (Hnone o). }
    rewrite !decide_False; [done | by rewrite Hd | by rewrite Hp].
Qed.

Lemma returned_one_pickup_one_delivery_witness :
  ∃ route total timeline,
    optimize_route driver 2 [order1] = Returned route total timeline ∧
    length route = (2 * length [order1])%nat.
Proof.
  destruct order1_run as (route & total & timeline & Hrun).
  exists route, total, timeline. split; [exact Hrun |].
  exact (proj1 (returned_one_pickup_one_delivery _ _ _ _ _ _ Hrun)).
Defined.

Lemma reachable_deliveries driver_location orders route timeline state :
  NoDup (map id orders) →
  reachable driver_location orders route timeline state →
  ∀ i n oid t,
    timeline !! i = Some (Delivery n oid t) →
    (∃ o, o ∈ orders ∧ id o = oid ∧ n = name (customer o)) ∧
    ∃ j n' t', (j < i)%nat ∧ timeline !! j = Some (Pickup n' oid t').
Proof.
  intros Hnd.
  apply (reachable_pass_ind driver_location orders
           (λ _ timeline _,
              ∀ i n oid t,
                timeline !! i = Some (Delivery n oid t) →
                (∃ o, o ∈ orders ∧ id o = oid ∧ n = name (customer o)) ∧
                ∃ j n' t', (j < i)%nat ∧ timeline !! j = Some (Pickup n' oid t'))).
  { intros i ? ? ? Hi. by rewrite lookup_nil in Hi. }
  intros route0 timeline0 state0 route' timeline' state' Hr IH Hpass.
  assert (Hold : ∀ events i n oid t,
            (timeline0 ++ events) !! i = Some (Delivery n oid t) →
            (i < length timeline0)%nat →
            (∃ o, o ∈ orders ∧ id o = oid ∧ n = name (customer o)) ∧
            ∃ j n' t', (j < i)%nat ∧ (timeline0 ++ events) !! j = Some (Pickup n' oid t')).
  { intros events i n oid t Hi Hlt. rewrite lookup_app_l in Hi by done.
    destruct (IH _ _ _ _ Hi) as [Ho (j & n' & t' & Hj & Hp)]. split; [done |].
    exists j, n', t'. split; [done |]. rewrite lookup_app_l by lia. done. }
  destruct Hpass as [| o m loc w Ho Hm _ Hkind Hloc _ | o m loc w Ho Hm _ Hkind Hloc _
                     | o m loc w Ho Hm _ Hkind Hloc]; [done | ..];
    intros i n oid t Hi;
    (destruct (decide (i < length timeline0)%nat) as [Hlt | Hge];
       [by eapply Hold |]);
    rewrite lookup_app_r in Hi by lia.
  - destruct (i - length timeline0)%nat as [| [| k]]; simpl in Hi; done.
  - destruct (i - length timeline0)%nat as [| k]; simpl in Hi; done.
  - destruct (i - length timeline0)%nat as [| k] eqn:Ei; simpl in Hi; [| done].
    inversion Hi; subst n oid t. clear Hi.
    rewrite (matching_NoDup _ _ Hnd Ho) in Hm. inversion Hm; subst m.
    destruct Hkind as [[_ Hl] | [Hd Hl]]; [done |].
    split; [exists o; by rewrite Hl |].
    unfold delivery_valid in Hd. apply andb_true_iff in Hd as [Hd _].
    apply bool_decide_eq_true in Hd.
    destruct (reachable_sets _ _ _ _ _ Hr) as (_ & _ & Hpe & _).
    apply Hpe in Hd as (n' & t' & Hin).
    apply list_elem_of_lookup in Hin as [j Hj].
    apply lookup_lt_Some in Hj as Hlen.
    exists j, n', t'. split; [lia |]. by rewrite lookup_app_l.
Qed.

(** 
   X20: in the timeline of every run that returns, a delivery event carries
   the name of the customer of the order with its identifier, and a pickup
   event of the same order stands earlier in the timeline.
*)
Theorem returned_delivery_after_pickup driver_location fuel orders route total timeline :
  optimize_route driver_location fuel orders = Returned route total timeline →
  ∀ i n oid t,
    timeline !! i = Some (Delivery n oid t) →
    (∃ o, o ∈ orders ∧ id o = oid ∧ n = name (customer o)) ∧
    ∃ j n' t', (j < i)%nat ∧ timeline !! j = Some (Pickup n' oid t').
Proof.
  intros Hrun.
  destruct (returned_well_formed _ _ _ _ _ _ Hrun) as [Hnd _].
  destruct (returned_reachable _ _ _ _ _ _ Hrun) as (state & Hr & _ & _).
  by apply (reachable_deliveries _ _ _ _ _ Hnd Hr).
Qed.

Lemma returned_delivery_after_pickup_witness :
  ∃ route total timeline,
    optimize_route driver 2 [order1] = Returned route total timeline ∧
    ∀ i n oid t,
      timeline !! i = Some (Delivery n oid t) →
      (∃ o, o ∈ [order1] ∧ id o = oid ∧ n = name (customer o)) ∧
      ∃ j n' t', (j < i)%nat ∧ timeline !! j = Some (Pickup n' oid t').
Proof.
  destruct order1_run as (route & total & timeline & Hrun).
  exists route, total, timeline. split; [exact Hrun |].
  exact (returned_delivery_after_pickup _ _ _ _ _ _ Hrun).
Defined.

(** 
   X21: the total time of every run that returns is at least the
   preparation time of the restaurant of every listed order.
*)
Theorem returned_total_after_preparation driver_location fuel orders route total timeline :
  optimize_route driver_location fuel orders = Returned route total timeline →
  ∀ o, o ∈ orders → prep_time (restaurant o) <= total.
Proof.
  intros Hrun o Ho.
  destruct (returned_well_formed _ _ _ _ _ _ Hrun) as [Hnd _].
  destruct (returned_all_delivered _ _ _ _ _ _ Hrun) as (state & Hr & -> & Hp & _).
  destruct (reachable_sets _ _ _ _ _ Hr) as (_ & _ & Hpe & _).
  assert (Hin : id o ∈ picked_up_orders state).
  { rewrite Hp. apply elem_of_order_ids. eauto. }
  apply Hpe in Hin as (n & t & Hev).
  pose proof (reachable_events_sound _ _ _ _ _ Hr _ Hev) as (m & Hm & _ & _ & _ & Hprep).
  rewrite (matching_NoDup _ _ Hnd Ho) in Hm. inversion Hm; subst m.
  destruct (reachable_chronological _ _ _ _ _ Hr) as [Hc Hf].
  destruct (timeline_continuity_bounds _ _ Hc) as [_ Hall].
  destruct (Hall _ Hev) as [_ Hle]. rewrite Hf in Hle. simpl in Hle. lra.
Qed.

Lemma returned_total_after_preparation_witness :
  ∃ route total timeline,
    optimize_route driver 2 [order1] = Returned route total timeline ∧
    prep_time (restaurant order1) <= total.
Proof.
  destruct order1_run as (route & total & timeline & Hrun).
  exists route, total, timeline. split; [exact Hrun |].
  apply (returned_total_after_preparation _ _ _ _ _ _ Hrun). left.
Defined.

(** In exact arithmetic, the run on a single order whose customer is not
    its restaurant's own [Location], with the times written out. *)
Lemma optimize_route_single_explicit driver_location o :
  customer o ≠ location (restaurant o) →
  let arrive := travel_time driver_location (location (restaurant o)) in
  let ready := Rmax arrive (prep_time (restaurant o)) in
  let total := ready + travel_time (location (restaurant o)) (customer o) in
  optimize_route driver_location 2 [o] =
  Returned [location (restaurant o); customer o] total
    ((if bool_decide (arrive < prep_time (restaurant o))
      then [Waiting (name (location (restaurant o))) (id o) arrive
              (prep_time (restaurant o))]
      else []) ++
     [Pickup (name (location (restaurant o))) (id o) ready;
      Delivery (name (customer o)) (id o) total]).
Proof.
  intros Hne arrive ready total.
  rewrite (optimize_route_single driver_location o Hne).
  assert (Ha : first_arrival driver_location o = arrive).
  { unfold first_arrival, arrival_at, arrive. cbn [state_time state_location new_state]. lra. }
  assert (Hr : first_pickup_time driver_location o = ready).
  { unfold first_pickup_time. by rewrite py_max_Rmax, Ha. }
  assert (Ht : arrival_at (state_after_pickup driver_location o) (customer o) = total).
  { unfold arrival_at, state_after_pickup, total.
    cbn [state_time state_location]. by rewrite Hr. }
  rewrite Ha, Hr, Ht. f_equal. f_equal.
  unfold ready, Rmax.
  destruct (Rle_dec arrive (prep_time (restaurant o))) as [Hle | Hgt].
  - destruct (decide (arrive < prep_time (restaurant o))) as [Hlt | Hnlt].
    + by rewrite !(bool_decide_eq_true_2 _ Hlt).
    + by rewrite !(bool_decide_eq_false_2 _ Hnlt).
  - rewrite !bool_decide_eq_false_2 by lra. done.
Qed.

End Returned.

(** *** The first stop *)

Section FirstStop.
Local Open Scope R_scope.

Lemma run_loop_extends fuel orders route timeline state route' total timeline' :
  run_loop fuel orders route timeline state = Returned route' total timeline' →
  ∃ stops events, route' = route ++ stops ∧ timeline' = timeline ++ events.
Proof.
  revert route timeline state.
  induction fuel as [| fuel IH]; intros route timeline state;
    rewrite run_loop_unfold; destruct (loop_guard orders state);
    try done;
    try (intros H; inversion H; subst; exists [], []; by rewrite !app_nil_r).
  destruct (iteration orders route timeline state) as [[r1 t1 | e] s1] eqn:Hit; [| done].
  intros Hrun. destruct (IH _ _ _ Hrun) as (stops & events & -> & ->).
  apply iteration_pass in Hit.
  destruct Hit; try (eexists _, _; by rewrite <- !app_assoc).
  by exists stops, events.
Qed.

(** 
   X23: the first stop of every run that returns on a non-empty order list
   is the restaurant of a listed order, and no listed order has a
   restaurant that is a shorter drive from the driver's start location.
*)
Theorem returned_first_stop_nearest_restaurant driver_location fuel orders
    route total timeline :
  orders ≠ [] →
  optimize_route driver_location fuel orders = Returned route total timeline →
  ∃ o stops,
    o ∈ orders ∧ route = location (restaurant o) :: stops ∧
    ∀ o', o' ∈ orders →
      travel_time driver_location (location (restaurant o))
      <= travel_time driver_location (location (restaurant o')).
Proof.
  intros Hne Hrun. unfold optimize_route in Hrun.
  set (s0 := new_state driver_location 0) in *.
  assert (Hpick : ∀ o', o' ∈ orders → pickup_valid s0 o' false = true).
  { intros o' _. unfold pickup_valid. cbn [negb orb]. rewrite andb_true_r.
    apply bool_decide_eq_true, not_elem_of_empty. }
  assert (Hnodel : ∀ o', delivery_valid s0 o' = false).
  { intros o'. unfold delivery_valid.
    rewrite (bool_decide_eq_false_2 (id o' ∈ picked_up_orders s0)); [done |].
    apply not_elem_of_empty. }
  rewrite run_loop_unfold in Hrun.
  assert (Hg : loop_guard orders s0 = true).
  { apply bool_decide_eq_true. cbn [delivered_orders s0 new_state].
    rewrite size_empty. destruct orders; [done | simpl; lia]. }
  rewrite Hg in Hrun. destruct fuel as [| fuel]; [done |].
  rewrite iteration_run in Hrun.
  assert (Hsel : selected s0 orders
                 = fold_left improve_with (candidates s0 false orders) no_candidate).
  { unfold selected. rewrite fold_visit_candidates.
    pose proof (fold_improve_spec (candidates s0 false orders)) as H.
    destruct (candidates s0 false orders) as [| c cs] eqn:E.
    - exfalso. destruct orders as [| o1 rest]; [done |].
      apply (candidates_nonempty s0 false (o1 :: rest) o1); [left | | done].
      left. apply Hpick. left.
    - destruct H as (i & loc & oid & t & _ & -> & _). done. }
  rewrite Hsel in Hrun.
  pose proof (fold_improve_spec (candidates s0 false orders)) as Hmin.
  destruct (candidates s0 false orders) as [| c cs] eqn:E.
  { exfalso. destruct orders as [| o1 rest]; [done |].
    apply (candidates_nonempty s0 false (o1 :: rest) o1); [left | | done].
    left. apply Hpick. left. }
  destruct Hmin as (i & loc & oid & t & Hi & Hfold & Hleast & _).
  rewrite Hfold in Hrun.
  assert (Hc : (loc, oid, t) ∈ candidates s0 false orders).
  { rewrite E. apply list_elem_of_lookup. eauto. }
  apply elem_of_candidates in Hc as (o & Ho & Hc).
  apply elem_of_candidates_of in Hc as (Hid & Harr & Hkind). simpl in Hid, Harr, Hkind.
  destruct Hkind as [[_ Hloc] | [Hd _]]; [| by rewrite Hnodel in Hd].
  destruct (matching_elem orders o Ho) as (m & Hm & _ & _).
  rewrite Hid, (visit_stop_run _ _ _ _ _ _ _ _ Hm) in Hrun.
  assert (Hstep : ∃ tl1 s1, stop_result m loc (id o) t [] [] s0
                            = (Continue ([] ++ [loc]) tl1, s1)).
  { unfold stop_result. case_bool_decide; eauto. }
  destruct Hstep as (tl1 & s1 & Hstep). rewrite Hstep in Hrun.
  apply run_loop_extends in Hrun as (stops & events & -> & _).
  exists o, stops. split; [done |]. split; [by rewrite Hloc |].
  intros o' Ho'.
  assert (Hc' : (location (restaurant o'), id o',
                 arrival_at s0 (location (restaurant o'))) ∈ candidates s0 false orders).
  { apply elem_of_candidates. exists o'. split; [done |].
    unfold candidates_of. rewrite (Hpick o' Ho'). apply elem_of_app. left. left. }
  rewrite E in Hc'. apply list_elem_of_lookup in Hc' as [j Hj].
  specialize (Hleast _ _ Hj). simpl in Hleast.
  rewrite Harr, Hloc in Hleast. unfold arrival_at in Hleast.
  cbn [state_time state_location s0 new_state] in Hleast. lra.
Qed.

Lemma returned_first_stop_nearest_restaurant_witness :
  [order1] ≠ [] ∧
  ∃ route total timeline,
    optimize_route driver 2 [order1] = Returned route total timeline ∧
    ∃ o stops, o ∈ [order1] ∧ route = location (restaurant o) :: stops.
Proof.
  assert (Hne : [order1] ≠ []) by discriminate.
  split; [exact Hne |].
  destruct order1_run as (route & total & timeline & Hrun).
  exists route, total, timeline. split; [exact Hrun |].
  destruct (returned_first_stop_nearest_restaurant _ _ _ _ _ _ Hne Hrun)
    as (o & stops & Ho & Hroute & _).
  exists o, stops. by split.
Defined.

End FirstStop.

(** * The candidate search, stop by stop *)

Section SearchStops.
Local Open Scope R_scope.

Lemma eligible_stop_guards state w o loc :
  eligible_stop state w o loc ↔
  (pickup_valid state o w = true ∧ loc = location (restaurant o)) ∨
  (delivery_valid state o = true ∧ loc = customer o).
Proof.
  unfold eligible_stop, delivery_valid.
  rewrite pickup_valid_iff, andb_true_iff, !bool_decide_eq_true.
  unfold arrival_at. destruct w; intuition congruence.
Qed.

(** An order offers the search at most one stop. *)
Lemma visit_pure_cases state w o :
  ((∀ loc, ¬ eligible_stop state w o loc) ∧ ∀ b, visit_pure state w b o = b)
  ∨
  ∃ loc, eligible_stop state w o loc ∧
         (∀ loc', eligible_stop state w o loc' → loc' = loc) ∧
         ∀ b, visit_pure state w b o = improve loc (id o) (arrival_at state loc) b.
Proof.
  destruct (pickup_valid state o w) eqn:Hp; destruct (delivery_valid state o) eqn:Hd.
  - exfalso. unfold pickup_valid, delivery_valid in *.
    apply andb_true_iff in Hp as [Hp _]. apply andb_true_iff in Hd as [Hd _].
    apply bool_decide_eq_true in Hp, Hd. done.
  - right. exists (location (restaurant o)). split; [| split].
    + apply eligible_stop_guards. auto.
    + intros loc' [[_ ->] | [H _]]%eligible_stop_guards; [done | congruence].
    + intros b. unfold visit_pure. by rewrite Hp, Hd.
  - right. exists (customer o). split; [| split].
    + apply eligible_stop_guards. auto.
    + intros loc' [[H _] | [_ ->]]%eligible_stop_guards; [congruence | done].
    + intros b. unfold visit_pure. by rewrite Hp, Hd.
  - left. split.
    + intros loc [[H _] | [H _]]%eligible_stop_guards; congruence.
    + intros b. unfold visit_pure. by rewrite Hp, Hd.
Qed.

(** The scan, order by order: its result is the first order (by position in
    the list) whose stop has the least arrival time. *)
Lemma fold_visit_spec state w orders :
  (fold_left (visit_pure state w) orders no_candidate = no_candidate ∧
   ∀ o loc, o ∈ orders → ¬ eligible_stop state w o loc)
  ∨
  ∃ i o loc,
    orders !! i = Some o ∧ eligible_stop state w o loc ∧
    fold_left (visit_pure state w) orders no_candidate
    = (Some loc, Some (id o), Finite (arrival_at state loc)) ∧
    (∀ j o' loc', orders !! j = Some o' → eligible_stop state w o' loc' →
                  arrival_at state loc <= arrival_at state loc') ∧
    (∀ j o' loc', (j < i)%nat → orders !! j = Some o' → eligible_stop state w o' loc' →
                  arrival_at state loc < arrival_at state loc').
Proof.
  induction orders as [| x orders IH] using rev_ind.
  { left. split; [done |]. intros o loc Ho. by apply elem_of_nil in Ho. }
  rewrite fold_left_app. cbn [fold_left].
  assert (Hlast : ∀ j o', (orders ++ [x]) !! j = Some o' →
            ((j < length orders)%nat ∧ orders !! j = Some o') ∨ (j = length orders ∧ o' = x)).
  { intros j o' Hj. destruct (decide (j < length orders)%nat) as [Hlt | Hge].
    - left. by rewrite lookup_app_l in Hj.
    - right. apply lookup_lt_Some in Hj as Hlen. rewrite length_app in Hlen.
      cbn [length] in Hlen. assert (j = length orders) as -> by lia.
      rewrite list_lookup_middle in Hj by done. by inversion Hj. }
  destruct (visit_pure_cases state w x) as [[Hnone Hsame] | (lx & Hx & Huniq & Himp)].
  - (* the new order offers no stop *)
    rewrite Hsame. destruct IH as [[Hfold Hall] | (i & o & loc & Hi & He & Hfold & Hmin & Hfirst)].
    + left. split; [done |].
      intros o loc [Ho | Ho]%elem_of_app; [by apply Hall |].
      apply list_elem_of_singleton in Ho as ->. apply Hnone.
    + right. exists i, o, loc. apply lookup_lt_Some in Hi as Hlen.
      split; [by rewrite lookup_app_l |]. split; [done |]. split; [done |]. split.
      * intros j o' loc' Hj He'. destruct (Hlast _ _ Hj) as [[_ Hj'] | [_ ->]].
        -- by apply (Hmin j o').
        -- by apply Hnone in He'.
      * intros j o' loc' Hji Hj He'. rewrite lookup_app_l in Hj by lia.
        by apply (Hfirst j o').
  - (* the new order offers the stop [lx] *)
    rewrite Himp. right.
    destruct IH as [[Hfold Hall] | (i & o & loc & Hi & He & Hfold & Hmin & Hfirst)].
    + rewrite Hfold. unfold improve. cbn [snd no_candidate lt_arrival].
      exists (length orders), x, lx.
      split; [by rewrite list_lookup_middle |]. split; [done |]. split; [done |]. split.
      * intros j o' loc' Hj He'. destruct (Hlast _ _ Hj) as [[_ Hj'] | [_ ->]].
        -- exfalso. apply (Hall o' loc'); [| done]. apply list_elem_of_lookup. eauto.
        -- rewrite (Huniq _ He'). lra.
      * intros j o' loc' Hjl Hj He'. rewrite lookup_app_l in Hj by done.
        exfalso. apply (Hall o' loc'); [| done]. apply list_elem_of_lookup. eauto.
    + rewrite Hfold. unfold improve. cbn [snd lt_arrival].
      apply lookup_lt_Some in Hi as Hlen.
      destruct (decide (arrival_at state lx < arrival_at state loc)) as [Hlt | Hge].
      * rewrite (bool_decide_eq_true_2 _ Hlt).
        exists (length orders), x, lx.
        split; [by rewrite list_lookup_middle |]. split; [done |]. split; [done |]. split.
        -- intros j o' loc' Hj He'. destruct (Hlast _ _ Hj) as [[_ Hj'] | [_ ->]].
           ++ specialize (Hmin _ _ _ Hj' He'). lra.
           ++ rewrite (Huniq _ He'). lra.
        -- intros j o' loc' Hjl Hj He'. rewrite lookup_app_l in Hj by done.
           specialize (Hmin _ _ _ Hj He'). lra.
      * rewrite (bool_decide_eq_false_2 _ Hge).
        exists i, o, loc.
        split; [by rewrite lookup_app_l |]. split; [done |]. split; [done |]. split.
        -- intros j o' loc' Hj He'. destruct (Hlast _ _ Hj) as [[_ Hj'] | [_ ->]].
           ++ by apply (Hmin j o').
           ++ rewrite (Huniq _ He'). lra.
        -- intros j o' loc' Hji Hj He'. rewrite lookup_app_l in Hj by lia.
           by apply (Hfirst j o').
Qed.

(** 
   C7: the search returns the eligible stop with the smallest arrival time,
   where the arrival time of a stop is state.time +
   travel_time(state.location, stop); among stops with that arrival time
   it returns the one of the order that comes first in the list (every
   stop of an earlier order is strictly later); it returns the stop's
   location, that order's identifier and the arrival time.  With no
   eligible stop it returns (None, None, +infinity).
*)
Theorem find_nearest_valid_location_nearest state orders waiting_required :
  ((find_nearest_valid_location orders waiting_required state).1 = (None, None, Infinity) ∧
   ∀ o loc, o ∈ orders → ¬ eligible_stop state waiting_required o loc)
  ∨
  ∃ i o loc,
    orders !! i = Some o ∧ eligible_stop state waiting_required o loc ∧
    (find_nearest_valid_location orders waiting_required state).1
    = (Some loc, Some (id o),
       Finite (state_time state + travel_time (state_location state) loc)) ∧
    (∀ j o' loc',
       orders !! j = Some o' → eligible_stop state waiting_required o' loc' →
       state_time state + travel_time (state_location state) loc
       <= state_time state + travel_time (state_location state) loc') ∧
    (∀ j o' loc',
       (j < i)%nat → orders !! j = Some o' → eligible_stop state waiting_required o' loc' →
       state_time state + travel_time (state_location state) loc
       < state_time state + travel_time (state_location state) loc').
Proof.
  rewrite find_nearest_run. cbn [fst].
  exact (fold_visit_spec state waiting_required orders).
Qed.




End SearchStops.

(** * Pickup before delivery *)

Section PickupBeforeDelivery.
Local Open Scope R_scope.





End PickupBeforeDelivery.

(** * The distance on binary64 numbers *)

Module Binary64Facts.
Import Stdlib.Floats.Floats.
Import Binary64.
Local Open Scope float_scope.

(** The constant of [math.radians] is 0.017453292519943295. *)
Lemma degToRad_value : degToRad = 0x1.1df46a2529d39p-6.
Proof. reflexivity. Qed.

(** [math.sqrt] raises on a negative number, however small. *)
Lemma math_sqrt_negative : math_1 sqrt (-0x1p-64) = ValueError.
Proof. reflexivity. Qed.

(** The two longitudes differ and have the same value in radians. *)
Lemma radians_not_injective :
  (lon equator_a =? lon equator_b) = false ∧
  radians (lon equator_a) = radians (lon equator_b).
Proof. split; reflexivity. Qed.

(** 
   C5, counterexample: two places on the equator whose longitudes differ
   in the last bit.  The difference is lost when the longitudes are turned
   into radians, so the distance is exactly zero, whatever the C library
   computes away from zero, although the coordinates are not identical.
*)
Lemma haversine_distance_zero_on_equator :
  (∀ m : Libm, haversine_distance m equator_a equator_b = Ok 0) ∧
  (lat equator_a =? lat equator_b) = true ∧
  (lon equator_a =? lon equator_b) = false.
Proof.
  split; [| split; reflexivity].
  intros m. unfold haversine_distance. cbn [lat lon equator_a equator_b].
  assert (H1 : (radians 0 - radians 0) / 2 = 0) by reflexivity.
  assert (H2 : (radians 0x1.e000000000003p+3 - radians 0x1.e000000000002p+3) / 2 = 0)
    by reflexivity.
  assert (H3 : radians 0 = 0) by reflexivity.
  rewrite H1, H2, H3. unfold math_1. rewrite !sin_zero, !cos_zero.
  cbn. rewrite asin_zero. reflexivity.
Qed.

End Binary64Facts.

(** * Runs that return *)

Section ReturnedRuns.
Local Open Scope R_scope.

(** More passes than a run needs change nothing. *)
Lemma run_loop_more_fuel fuel k orders route timeline state route' total timeline' :
  run_loop fuel orders route timeline state = Returned route' total timeline' →
  run_loop (fuel + k) orders route timeline state = Returned route' total timeline'.
Proof.
  revert route timeline state.
  induction fuel as [| fuel IH]; intros route timeline state;
    rewrite (run_loop_unfold (_ + k)), run_loop_unfold;
    destruct (loop_guard orders state); try done.
  cbn [Nat.add].
  destruct (iteration orders route timeline state) as [[r1 tl1 | e] s1]; [| done].
  apply IH.
Qed.

Lemma run_loop_deterministic fuel1 fuel2 orders route timeline state r1 r2 :
  run_loop fuel1 orders route timeline state = r1 →
  run_loop fuel2 orders route timeline state = r2 →
  (∃ route' total timeline', r1 = Returned route' total timeline') →
  (∃ route' total timeline', r2 = Returned route' total timeline') →
  r1 = r2.
Proof.
  intros H1 H2 (ra & ta & tla & ->) (rb & tb & tlb & ->).
  apply (run_loop_more_fuel _ fuel2) in H1.
  apply (run_loop_more_fuel _ fuel1) in H2.
  rewrite (Nat.add_comm fuel2 fuel1) in H2. congruence.
Qed.

(** Each pass adds at most one stop to the route. *)
Lemma run_loop_route_length fuel orders route timeline state route' total timeline' :
  run_loop fuel orders route timeline state = Returned route' total timeline' →
  (length route' ≤ length route + fuel)%nat.
Proof.
  revert route timeline state.
  induction fuel as [| fuel IH]; intros route timeline state;
    rewrite run_loop_unfold; destruct (loop_guard orders state); try done;
    try (intros H; inversion H; subst; lia).
  destruct (iteration orders route timeline state) as [[r1 tl1 | e] s1] eqn:Hit; [| done].
  intros Hrun. apply IH in Hrun. apply iteration_pass in Hit.
  destruct Hit; rewrite ?length_app in Hrun; cbn [length] in Hrun; lia.
Qed.

(** 
   X12: the generator expression of line 132 always yields an order.  When
   the stop selection returns a location, it returns with it an arrival
   time below float('inf') and the identifier of an order of the list, and
   next(...) is the first listed order with that identifier.  No pass
   through the loop body ends with StopIteration.
*)
Theorem select_stop_order_listed orders state :
  (∀ loc oid a,
     (select_stop orders state).1 = (Some loc, oid, a) →
     ∃ order_id t m,
       oid = Some order_id ∧ a = Finite t ∧
       matching orders order_id = Some m ∧ m ∈ orders ∧ id m = order_id)
  ∧
  (∀ route timeline,
     (iteration orders route timeline state).1 ≠ Raise StopIteration).
Proof.
  split.
  - intros loc oid a Hsel. rewrite select_stop_run in Hsel. cbn [fst] in Hsel.
    destruct (selected_shape state orders) as [Hno | (w & c & Hc & Hs)].
    { rewrite Hno in Hsel. discriminate. }
    rewrite Hs in Hsel. inversion Hsel; subst loc oid a.
    apply elem_of_candidates in Hc as (o & Ho & Hc).
    apply elem_of_candidates_of in Hc as (Hid & _ & _).
    destruct (matching_elem orders o Ho) as (m & Hm & Hmid & Hmin).
    exists c.1.2, c.2, m. rewrite Hid. repeat split; try done.
  - intros route timeline.
    destruct (iteration_continues orders route timeline state)
      as (route' & timeline' & state' & ->).
    discriminate.
Qed.

Lemma select_stop_order_listed_witness :
  (select_stop [order1] (new_state driver 0)).1
  = (Some r1_loc, Some "1", Finite (first_arrival driver order1)) ∧
  ∃ m, matching [order1] "1" = Some m ∧ m ∈ [order1].
Proof.
  assert (Hsel : (select_stop [order1] (new_state driver 0)).1
                 = (Some r1_loc, Some "1", Finite (first_arrival driver order1))).
  { rewrite select_stop_run. cbn [fst]. apply (selected_fresh driver order1). }
  split; [exact Hsel |].
  destruct (select_stop_order_listed [order1] (new_state driver 0)) as [Hfound _].
  destruct (Hfound _ _ _ Hsel) as (order_id & t & m & Hoid & _ & Hm & Hin & _).
  inversion Hoid; subst order_id. exists m. by split.
Defined.

(** 
   X17: optimize_route returns only on an order list whose identifiers
   are pairwise distinct and in which no order has its restaurant's own
   Location (equal name, lat and lon) as customer.
*)
Theorem optimize_route_returns_only_if driver_location fuel orders route total timeline :
  optimize_route driver_location fuel orders = Returned route total timeline →
  NoDup (map id orders) ∧
  ∀ o, o ∈ orders → customer o ≠ location (restaurant o).
Proof. apply returned_well_formed. Qed.

Lemma optimize_route_returns_only_if_witness :
  ∃ route total timeline,
    optimize_route driver 2 [order1] = Returned route total timeline ∧
    NoDup (map id [order1]) ∧
    customer order1 ≠ location (restaurant order1).
Proof.
  assert (Hne : customer order1 ≠ location (restaurant order1)) by discriminate.
  pose proof (optimize_route_single driver order1 Hne) as Hrun.
  eexists _, _, _. split; [exact Hrun |].
  destruct (optimize_route_returns_only_if driver 2 [order1] _ _ _ Hrun) as [Hnd Hdoor].
  split; [exact Hnd |]. apply Hdoor. left.
Defined.

(** 
   X18: a run of optimize_route that returns has gone through the loop
   body exactly 2N times for N orders: with fewer passes allowed it is
   still looping, and with 2N passes it returns the same result.
*)
Theorem returned_after_two_passes_per_order driver_location fuel orders
    route total timeline :
  optimize_route driver_location fuel orders = Returned route total timeline →
  (2 * length orders ≤ fuel)%nat ∧
  optimize_route driver_location (2 * length orders) orders
  = Returned route total timeline ∧
  ∀ fuel', (fuel' < 2 * length orders)%nat →
           optimize_route driver_location fuel' orders = OutOfFuel.
Proof.
  intros Hrun.
  destruct (returned_well_formed _ _ _ _ _ _ Hrun) as [Hnd Hdoor].
  destruct (run_loop_terminates orders Hnd Hdoor (2 * length orders)
              (2 * length orders) [] [] (new_state driver_location 0))
    as (route2 & total2 & timeline2 & Hrun2 & Hlen).
  { intros x Hx. by apply not_elem_of_empty in Hx. }
  { done. }
  { cbn [picked_up_orders delivered_orders new_state]. rewrite size_empty. lia. }
  { lia. }
  cbn [length] in Hlen.
  assert (Hsame : ∀ fuel' r t tl,
            optimize_route driver_location fuel' orders = Returned r t tl →
            Returned r t tl = Returned route2 total2 timeline2).
  { intros fuel' r t tl Hr.
    eapply (run_loop_deterministic fuel' (2 * length orders)); eauto. }
  pose proof (Hsame _ _ _ _ Hrun) as Heq.
  assert (Hmin : ∀ fuel' r t tl,
            optimize_route driver_location fuel' orders = Returned r t tl →
            (2 * length orders ≤ fuel')%nat).
  { intros fuel' r t tl Hr. pose proof (Hsame _ _ _ _ Hr) as He.
    inversion He; subst r t tl.
    apply run_loop_route_length in Hr. cbn [length] in Hr. lia. }
  split; [by eapply Hmin |]. split.
  - unfold optimize_route. by rewrite Hrun2, Heq.
  - intros fuel' Hlt.
    destruct (run_loop_never_raises fuel' orders [] [] (new_state driver_location 0))
      as [(r & t & tl & Hr) | Hout]; [| exact Hout].
    apply Hmin in Hr. lia.
Qed.

Lemma returned_after_two_passes_per_order_witness :
  ∃ route total timeline,
    optimize_route driver 2 [order1] = Returned route total timeline ∧
    optimize_route driver 1 [order1] = OutOfFuel ∧
    optimize_route driver 0 [order1] = OutOfFuel.
Proof.
  assert (Hne : customer order1 ≠ location (restaurant order1)) by discriminate.
  pose proof (optimize_route_single driver order1 Hne) as Hrun.
  eexists _, _, _. split; [exact Hrun |].
  destruct (returned_after_two_passes_per_order driver 2 [order1] _ _ _ Hrun)
    as (_ & _ & Hless).
  split; apply Hless; cbn [length]; lia.
Defined.

(** 
   X22: when optimize_route returns on a single order, the customer is
   not the restaurant's own Location and the route is the restaurant and
   then the customer; the order is picked up at max(travel time to the
   restaurant, preparation time), after a waiting event exactly when the
   driver arrives before the preparation time; the delivery and the total
   time are the pickup time plus the travel time from the restaurant to
   the customer.
*)
Theorem returned_single_order driver_location fuel o route total timeline :
  optimize_route driver_location fuel [o] = Returned route total timeline →
  let arrive := travel_time driver_location (location (restaurant o)) in
  let ready := Rmax arrive (prep_time (restaurant o)) in
  customer o ≠ location (restaurant o) ∧
  route = [location (restaurant o); customer o] ∧
  total = ready + travel_time (location (restaurant o)) (customer o) ∧
  timeline =
    (if bool_decide (arrive < prep_time (restaurant o))
     then [Waiting (name (location (restaurant o))) (id o) arrive
             (prep_time (restaurant o))]
     else []) ++
    [Pickup (name (location (restaurant o))) (id o) ready;
     Delivery (name (customer o)) (id o)
       (ready + travel_time (location (restaurant o)) (customer o))].
Proof.
  intros Hrun arrive ready.
  destruct (returned_well_formed _ _ _ _ _ _ Hrun) as [_ Hdoor].
  assert (Hne : customer o ≠ location (restaurant o)) by (apply Hdoor; left).
  pose proof (optimize_route_single_explicit driver_location o Hne) as Htwo.
  cbv zeta in Htwo.
  assert (Heq : Returned route total timeline = optimize_route driver_location 2 [o]).
  { eapply (run_loop_deterministic fuel 2); eauto. }
  rewrite Htwo in Heq. inversion Heq; subst route total timeline.
  done.
Qed.

Lemma returned_single_order_witness :
  ∃ total timeline,
    optimize_route driver 2 [order1] = Returned [r1_loc; c1_loc] total timeline ∧
    total = Rmax (travel_time driver r1_loc) 20 + travel_time r1_loc c1_loc.
Proof.
  assert (Hne : customer order1 ≠ location (restaurant order1)) by discriminate.
  pose proof (optimize_route_single driver order1 Hne) as Hrun.
  eexists _, _. split; [exact Hrun |].
  apply (returned_single_order driver 2 order1 _ _ _ Hrun).
Defined.

End ReturnedRuns.
